(** * A circular byte buffer: sgs_buffer.c

    Shallow embedding of [src/client/c/sgs_buffer.c] (with the struct of
    [impl/sgs_buffer_impl.h]) and the properties of its interface.

    - [size_t] values are integers in [0, 2^64) with the wrap-around of
      unsigned arithmetic written out ([to_size_t]);
    - memory blocks are lists of bytes; [memcpy] and the system calls
      check every access against the block they are handed, and an access
      outside the block is undefined behaviour ([Undef OutOfBounds]);
    - a descriptor is a function from the transcript of the calls made on
      it so far, and the current request, to its reply. *)

From Stdlib Require Import Strings.String.
From Stdlib Require Import ZArith List Lia Bool Strings.Byte.
Import ListNotations.
Local Open Scope Z_scope.

(** ** Outcomes of running C code *)

Inductive ub : Type :=
| OutOfBounds     (* a memory access outside the block *)
| DivisionByZero. (* [x % 0] *)

Inductive run (A : Type) : Type :=
| Done (a : A)     (* the code returned *)
| Undef (u : ub)   (* undefined behaviour *)
| OutOfFuel.       (* a loop was still running when the fuel ran out *)

Arguments Done {A} a.
Arguments Undef {A} u.
Arguments OutOfFuel {A}.

Definition bind {A B : Type} (m : run A) (k : A -> run B) : run B :=
  match m with
  | Done a => k a
  | Undef u => Undef u
  | OutOfFuel => OutOfFuel
  end.

Notation "x <- m ;; k" := (bind m (fun x => k))
  (at level 61, m at next level, right associativity).
Notation "' p <- m ;; k" := (bind m (fun x => match x with p => k end))
  (at level 61, p pattern, m at next level, right associativity).

(** ** Machine integers *)

Definition SIZE_BITS : Z := 64.
Definition SIZE_MOD : Z := 2 ^ SIZE_BITS.

(** Conversion to [size_t]: reduction modulo [2^64]. *)
Definition to_size_t (x : Z) : Z := x mod SIZE_MOD.

(** Conversion of a [size_t] to [int] (two's complement, 32 bits). *)
Definition to_int (x : Z) : Z := (x + 2 ^ 31) mod 2 ^ 32 - 2 ^ 31.

(** The [%] operator on [size_t]. *)
Definition size_rem (x y : Z) : run Z :=
  if y =? 0 then Undef DivisionByZero else Done (x mod y).

(** ** Memory blocks *)

(** Length of a block, as an integer. *)
Definition blen {A : Type} (l : list A) : Z := Z.of_nat (length l).

(** [load m off n]: the [n] bytes of block [m] from offset [off]. *)
Definition load (m : list byte) (off n : Z) : run (list byte) :=
  if (0 <=? off) && (0 <=? n) && (off + n <=? blen m)
  then Done (firstn (Z.to_nat n) (skipn (Z.to_nat off) m))
  else Undef OutOfBounds.

(** [store m off bs]: block [m] with [bs] written from offset [off]. *)
Definition store (m : list byte) (off : Z) (bs : list byte) : run (list byte) :=
  if (0 <=? off) && (off + blen bs <=? blen m)
  then Done (firstn (Z.to_nat off) m ++ bs ++ skipn (Z.to_nat (off + blen bs)) m)
  else Undef OutOfBounds.

(** [memcpy(dst + doff, src + soff, n)]; the result is the new [dst]. *)
Definition memcpy (dst : list byte) (doff : Z) (src : list byte) (soff n : Z)
  : run (list byte) :=
  bs <- load src soff n ;;
  store dst doff bs.

(** ** The buffer *)

(** The struct behind the [sgs_buffer] pointer, with the fields of
    [struct sgs_buffer_impl] that sgs_buffer.c reads and writes: three
    [size_t] fields and [buf], here the block the pointer refers to. *)
Record sgs_buffer : Type := mkBuffer {
  capacity : Z;
  position : Z;
  size : Z;
  buf : list byte
}.

Definition set_position (b : sgs_buffer) (p : Z) : sgs_buffer :=
  mkBuffer (capacity b) p (size b) (buf b).
Definition set_size (b : sgs_buffer) (n : Z) : sgs_buffer :=
  mkBuffer (capacity b) (position b) n (buf b).
Definition set_buf (b : sgs_buffer) (m : list byte) : sgs_buffer :=
  mkBuffer (capacity b) (position b) (size b) m.

(** *** Static helpers *)

Definition tailpos (b : sgs_buffer) : run Z :=
  size_rem (to_size_t (position b + size b)) (capacity b).

Definition readable_len (b : sgs_buffer) : run Z :=
  t <- tailpos b ;;
  if position b <=? t
  then Done (size b)
  else Done (to_size_t (capacity b - position b)).

Definition writable_len (b : sgs_buffer) : run Z :=
  mytailpos <- tailpos b ;;
  if position b <=? mytailpos
  then Done (to_size_t (capacity b - mytailpos))
  else Done (to_size_t (position b - mytailpos)).

(** *** Queries, construction, reset *)

Definition sgs_buffer_capacity (b : sgs_buffer) : Z := capacity b.

Definition sgs_buffer_size (b : sgs_buffer) : Z := size b.

Definition sgs_buffer_remaining_capacity (b : sgs_buffer) : Z :=
  to_size_t (capacity b - size b).

(** [sgs_buffer_create(capacity)]. The two [malloc] calls are answered by
    the arguments: [struct_ok] tells whether the struct was allocated,
    [block] is the uninitialised block handed out for [buf] ([None] when
    that allocation fails). [None] is the [NULL] result. *)
Definition sgs_buffer_create (cap : Z) (struct_ok : bool)
           (block : option (list byte)) : option sgs_buffer :=
  if struct_ok then
    match block with
    | None => None
    | Some m => Some (mkBuffer cap 0 0 m)
    end
  else None.

Definition sgs_buffer_empty (b : sgs_buffer) : sgs_buffer :=
  set_size (set_position b 0) 0.

(** *** Peek and read

    Both return the [int] result and the caller's block [data] after the
    call; [sgs_buffer_read] also returns the buffer after the call. *)

Definition sgs_buffer_peek (b : sgs_buffer) (data : list byte) (len : Z)
  : run (Z * list byte) :=
  readable <- readable_len b ;;
  if size b <? len then Done (-1, data)
  else if len <=? readable then
    data1 <- memcpy data 0 (buf b) (position b) len ;;
    Done (0, data1)
  else
    data1 <- memcpy data 0 (buf b) (position b) readable ;;
    data2 <- memcpy data1 readable (buf b) 0 (to_size_t (len - readable)) ;;
    Done (0, data2).

Definition sgs_buffer_read (b : sgs_buffer) (data : list byte) (len : Z)
  : run (Z * list byte * sgs_buffer) :=
  '(r, data1) <- sgs_buffer_peek b data len ;;
  if r =? -1 then Done (-1, data1, b)
  else
    p <- size_rem (to_size_t (position b + len)) (capacity b) ;;
    let b1 := set_position b p in
    let b2 := set_size b1 (to_size_t (size b1 - len)) in
    Done (0, data1, b2).

(** *** Write *)

Inductive errno_code : Type := ENOBUFS.

(** Returns the [int] result, the buffer after the call and the value
    assigned to [errno], if any. *)
Definition sgs_buffer_write (b : sgs_buffer) (data : list byte) (len : Z)
  : run (Z * sgs_buffer * option errno_code) :=
  writable <- writable_len b ;;
  if sgs_buffer_remaining_capacity b <? len then Done (-1, b, Some ENOBUFS)
  else
    m <- (if len <=? writable then
            t <- tailpos b ;;
            memcpy (buf b) t data 0 len
          else
            t <- tailpos b ;;
            m1 <- memcpy (buf b) t data 0 writable ;;
            memcpy m1 0 data writable (to_size_t (len - writable))) ;;
    let b1 := set_buf b m in
    Done (0, set_size b1 (to_size_t (size b1 + len)), None).

(** ** Descriptors

    A descriptor opened for reading is a function from the transcript of
    the [read] calls made on it so far and the number of bytes now
    requested to its reply; the transcript is the state threaded through
    the calls. Descriptors opened for writing are modelled alike. *)

Inductive read_reply : Type :=
| ReadError                   (* [read] returns -1 *)
| ReadBytes (bs : list byte). (* [read] delivers [bs]; none: end of stream *)

Definition read_log : Type := list (Z * read_reply).
Definition reader : Type := read_log -> Z -> read_reply.

(** [read(fd, m + off, n)]: the [ssize_t] result, the block after the
    call and the transcript after the call. *)
Definition sys_read (fd : reader) (h : read_log) (m : list byte) (off n : Z)
  : run (Z * list byte * read_log) :=
  let reply := fd h n in
  let h1 := h ++ [(n, reply)] in
  match reply with
  | ReadError => Done (-1, m, h1)
  | ReadBytes bs => m1 <- store m off bs ;; Done (blen bs, m1, h1)
  end.

Inductive write_reply : Type :=
| WriteError            (* [write] returns -1 *)
| WriteCount (k : Z).   (* [write] accepted the first [k] bytes *)

Definition write_log : Type := list (list byte * write_reply).
Definition writer : Type := write_log -> list byte -> write_reply.

(** [write(fd, m + off, n)]: the [ssize_t] result and the transcript
    after the call. *)
Definition sys_write (fd : writer) (h : write_log) (m : list byte) (off n : Z)
  : run (Z * write_log) :=
  bs <- load m off n ;;
  let reply := fd h bs in
  let h1 := h ++ [(bs, reply)] in
  match reply with
  | WriteError => Done (-1, h1)
  | WriteCount k => Done (k, h1)
  end.

(** *** Reading from and writing to a descriptor

    The [while] loops take fuel: one unit per iteration. *)

Fixpoint read_from_fd_loop (fuel : nat) (fd : reader) (h : read_log)
         (b : sgs_buffer) (total writable : Z)
  : run (Z * sgs_buffer * read_log) :=
  if 0 <? writable then
    match fuel with
    | O => OutOfFuel
    | S fuel' =>
        t <- tailpos b ;;
        '(ret, m, h1) <- sys_read fd h (buf b) t writable ;;
        let result := to_size_t ret in
        let b0 := set_buf b m in
        if result =? to_size_t (-1) then Done (-1, b0, h1)
        else if result =? 0 then Done (0, b0, h1)
        else
          let total1 := to_size_t (total + result) in
          let b1 := set_size b0 (to_size_t (size b0 + result)) in
          if negb (result =? writable) then Done (to_int total1, b1, h1)
          else
            writable1 <- writable_len b1 ;;
            read_from_fd_loop fuel' fd h1 b1 total1 writable1
    end
  else Done (to_int total, b, h).

Definition sgs_buffer_read_from_fd (fuel : nat) (fd : reader) (h : read_log)
           (b : sgs_buffer) : run (Z * sgs_buffer * read_log) :=
  writable <- writable_len b ;;
  read_from_fd_loop fuel fd h b 0 writable.

Fixpoint write_to_fd_loop (fuel : nat) (fd : writer) (h : write_log)
         (b : sgs_buffer) (total readable : Z)
  : run (Z * sgs_buffer * write_log) :=
  if 0 <? readable then
    match fuel with
    | O => OutOfFuel
    | S fuel' =>
        '(ret, h1) <- sys_write fd h (buf b) (position b) readable ;;
        let result := to_size_t ret in
        if result =? to_size_t (-1) then Done (-1, b, h1)
        else
          let total1 := to_size_t (total + result) in
          p <- size_rem (to_size_t (position b + result)) (capacity b) ;;
          let b1 := set_position b p in
          let b2 := set_size b1 (to_size_t (size b1 - result)) in
          if negb (result =? readable) then Done (to_int total1, b2, h1)
          else
            readable1 <- readable_len b2 ;;
            write_to_fd_loop fuel' fd h1 b2 total1 readable1
    end
  else Done (to_int total, b, h).

Definition sgs_buffer_write_to_fd (fuel : nat) (fd : writer) (h : write_log)
           (b : sgs_buffer) : run (Z * sgs_buffer * write_log) :=
  readable <- readable_len b ;;
  write_to_fd_loop fuel fd h b 0 readable.

(** ** Test data *)

Definition bytes_of (s : string) : list byte := list_byte_of_string s.

(** A block of [n] zero bytes. *)
Definition zeros (n : Z) : list byte := repeat x00 (Z.to_nat n).

(** ** Buffer states *)

(** The largest block [malloc] hands out. *)
Definition PTRDIFF_MAX : Z := 2 ^ 63 - 1.

(** What allocation and the types give: the block has [capacity] bytes,
    the head lies inside it, the fields are [size_t] values. *)
Record allocated (b : sgs_buffer) : Prop := {
  alloc_capacity : 0 < capacity b <= PTRDIFF_MAX;
  alloc_buf : blen (buf b) = capacity b;
  alloc_position : 0 <= position b < capacity b;
  alloc_size : 0 <= size b < SIZE_MOD
}.

(** The invariants of the data model. *)
Definition wf (b : sgs_buffer) : Prop :=
  allocated b /\ size b <= capacity b.

(** The same conditions as a test that evaluates. *)
Definition allocatedb (b : sgs_buffer) : bool :=
  (0 <? capacity b) && (capacity b <=? PTRDIFF_MAX) &&
  (blen (buf b) =? capacity b) &&
  (0 <=? position b) && (position b <? capacity b) &&
  (0 <=? size b) && (size b <? SIZE_MOD).

(** ** Vocabulary of the properties *)

(** The full buffer reached by writing 1 byte to a fresh buffer of
    capacity 2, reading it, and writing 2 bytes. *)
Definition full_wrapped : sgs_buffer := mkBuffer 2 1 2 (bytes_of "CB").

(** A descriptor that delivers 2 bytes to the first [read] and 1 byte to
    every later one. *)
Definition two_then_one : reader :=
  fun h _ => match h with
             | [] => ReadBytes (zeros 2)
             | _ :: _ => ReadBytes (zeros 1)
             end.

(** A descriptor that always delivers exactly the bytes requested. *)
Definition eager_reader : reader := fun _ n => ReadBytes (zeros n).

(** Bytes delivered by a reply, and by all replies of a transcript. *)
Definition reply_bytes (r : read_reply) : Z :=
  match r with
  | ReadError => 0
  | ReadBytes bs => blen bs
  end.

Fixpoint transferred (log : read_log) : Z :=
  match log with
  | [] => 0
  | (_, r) :: log' => reply_bytes r + transferred log'
  end.

(** A call that delivered exactly the bytes requested. *)
Definition full_entry (e : Z * read_reply) : Prop :=
  match snd e with
  | ReadError => False
  | ReadBytes bs => blen bs = fst e
  end.

(** A reply other than the [n] bytes requested: an error, the end of the
    stream, or a partial transfer. *)
Definition short_reply (n : Z) (r : read_reply) : Prop :=
  match r with
  | ReadError => True
  | ReadBytes bs => blen bs <> n
  end.

(** [read] never delivers more than it was asked for. *)
Definition respects_requests (fd : reader) : Prop :=
  forall h n, 0 <= n ->
    match fd h n with
    | ReadError => True
    | ReadBytes bs => blen bs <= n
    end.

(** From its [N]-th call on, the descriptor no longer satisfies a whole
    request. *)
Definition runs_dry (fd : reader) (N : nat) : Prop :=
  forall h n, (N <= length h)%nat -> 0 < n -> short_reply n (fd h n).

(** The descriptor that plays a finite sequence of transfer results, cut
    to the bytes requested, and then reports the end of the stream. *)
Definition scripted (script : list read_reply) : reader :=
  fun h n =>
    match nth_error script (length h) with
    | Some ReadError => ReadError
    | Some (ReadBytes bs) => ReadBytes (firstn (Z.to_nat n) bs)
    | None => ReadBytes []
    end.

(** The [int] result after a transcript that ends with [last], with
    [count] bytes transferred in the call. *)
Definition read_from_fd_result (last : read_reply) (count : Z) : Z :=
  match last with
  | ReadError => -1
  | ReadBytes [] => 0
  | ReadBytes (_ :: _) => to_int (to_size_t count)
  end.

(** The sentence of the specification: the call returns the number of
    bytes transferred in the call. *)
Definition returns_cumulative_count (fuel : nat) (fd : reader) (b : sgs_buffer)
  : Prop :=
  forall r b1 log,
    sgs_buffer_read_from_fd fuel fd [] b = Done (r, b1, log) ->
    r = transferred log.

(** Whether [sgs_buffer_write], once past its capacity check, takes the
    branch with two [memcpy] calls: the test [writable >= len] fails. *)
Definition write_wraps (b : sgs_buffer) (len : Z) : run bool :=
  writable <- writable_len b ;;
  Done (negb (len <=? writable)).

(** The stored bytes, oldest first: [size] bytes from [position], going
    round the end of the block. *)
Definition contents (b : sgs_buffer) : list byte :=
  firstn (Z.to_nat (size b))
         (skipn (Z.to_nat (position b)) (buf b)
          ++ firstn (Z.to_nat (position b)) (buf b)).

(** The wrap-around property as the specification words it: on a fresh
    buffer of capacity [c], write [c - k] bytes, read them, write [c]
    bytes through the two-copy branch, and read the same [c] bytes back. *)
Definition wraparound_roundtrip (c k : Z) (m d1 d2 o1 o2 : list byte) : Prop :=
  exists b0 b1 b2 b3 b4 o1',
    sgs_buffer_create c true (Some m) = Some b0 /\
    sgs_buffer_write b0 d1 (c - k) = Done (0, b1, None) /\
    sgs_buffer_read b1 o1 (c - k) = Done (0, o1', b2) /\
    sgs_buffer_size b2 = 0 /\
    write_wraps b2 c = Done true /\
    sgs_buffer_write b2 d2 c = Done (0, b3, None) /\
    sgs_buffer_read b3 o2 c = Done (0, d2, b4).

(** The bytes delivered by the replies of a transcript, in order. *)
Fixpoint delivered (log : read_log) : list byte :=
  match log with
  | [] => []
  | (_, ReadError) :: log' => delivered log'
  | (_, ReadBytes bs) :: log' => bs ++ delivered log'
  end.

(** [write] accepts at most the bytes it was offered. *)
Definition writer_respects (fd : writer) : Prop :=
  forall h bs,
    match fd h bs with
    | WriteError => True
    | WriteCount k => 0 <= k <= blen bs
    end.

(** The bytes a descriptor accepted, in order: of each chunk offered,
    the part the reply counts. *)
Fixpoint accepted (log : write_log) : list byte :=
  match log with
  | [] => []
  | (_, WriteError) :: log' => accepted log'
  | (bs, WriteCount k) :: log' => firstn (Z.to_nat k) bs ++ accepted log'
  end.

(** Whether some [write] of the transcript failed. *)
Fixpoint write_failed (log : write_log) : bool :=
  match log with
  | [] => false
  | (_, WriteError) :: _ => true
  | (_, WriteCount _) :: log' => write_failed log'
  end.

(** A descriptor that accepts every byte offered. *)
Definition accept_all : writer := fun _ bs => WriteCount (blen bs).

(** A descriptor that accepts one byte of every chunk offered. *)
Definition accept_one : writer := fun _ bs => WriteCount (Z.min 1 (blen bs)).

(** The buffers and lengths on which the copy of [sgs_buffer_peek] stays
    inside the block: all but a full buffer whose head is not at offset 0
    and is asked for more bytes than lie between the head and the end of
    the block. *)
Definition peekable (b : sgs_buffer) (len : Z) : Prop :=
  size b < capacity b \/ position b = 0 \/ len <= capacity b - position b.

(** What a returning call of [sgs_buffer_write_to_fd] leaves, for a loop
    entered with running total [total]: result [r], buffer [b'] and the
    calls [log] it made on descriptor [fd]. The block and the capacity
    stay; the bytes accepted are the stored bytes that are gone, and the
    head has advanced by their number; the result is -1 after a failed
    [write], else the running total; and the call ended because the
    buffer was empty or the last reply was not the whole chunk. *)
Definition write_outcome (fd : writer) (b : sgs_buffer) (total r : Z)
           (b' : sgs_buffer) (log : write_log) : Prop :=
  wf b' /\ capacity b' = capacity b /\ buf b' = buf b /\
  position b' = (position b + blen (accepted log)) mod capacity b /\
  contents b = accepted log ++ contents b' /\
  r = (if write_failed log then -1
       else to_int (to_size_t (total + blen (accepted log)))) /\
  Forall (fun e => exists h', snd e = fd h' (fst e)) log /\
  (size b' = 0 \/
   exists pre bs reply, log = pre ++ [(bs, reply)] /\
                        reply <> WriteCount (blen bs)).

(** * Properties *)

(** ** Arithmetic and memory lemmas *)

Lemma SIZE_MOD_eq : SIZE_MOD = 18446744073709551616.
Proof. reflexivity. Qed.

Lemma PTRDIFF_MAX_eq : PTRDIFF_MAX = 9223372036854775807.
Proof. reflexivity. Qed.

Lemma to_size_t_small (x : Z) : 0 <= x < SIZE_MOD -> to_size_t x = x.
Proof. intros H. unfold to_size_t. now apply Z.mod_small. Qed.

Lemma to_size_t_range (x : Z) : 0 <= to_size_t x < SIZE_MOD.
Proof. unfold to_size_t. apply Z.mod_pos_bound. rewrite SIZE_MOD_eq. lia. Qed.

Lemma to_size_t_add_l (x y : Z) : to_size_t (to_size_t x + y) = to_size_t (x + y).
Proof. unfold to_size_t. apply Zplus_mod_idemp_l. Qed.

Lemma to_size_t_minus_one : to_size_t (-1) = SIZE_MOD - 1.
Proof. reflexivity. Qed.

Lemma blen_nonneg {A : Type} (l : list A) : 0 <= blen l.
Proof. unfold blen. lia. Qed.

Lemma blen_app {A : Type} (l1 l2 : list A) : blen (l1 ++ l2) = blen l1 + blen l2.
Proof. unfold blen. rewrite length_app. lia. Qed.

Lemma blen_firstn {A : Type} (n : Z) (l : list A) :
  0 <= n <= blen l -> blen (firstn (Z.to_nat n) l) = n.
Proof. unfold blen. intros H. rewrite length_firstn. lia. Qed.

Lemma blen_skipn {A : Type} (n : Z) (l : list A) :
  0 <= n <= blen l -> blen (skipn (Z.to_nat n) l) = blen l - n.
Proof. unfold blen. intros H. rewrite length_skipn. lia. Qed.

Lemma blen_zeros (n : Z) : 0 <= n -> blen (zeros n) = n.
Proof. intros H. unfold blen, zeros. rewrite repeat_length. lia. Qed.

Lemma blen_nil_inv {A : Type} (l : list A) : blen l = 0 -> l = [].
Proof. destruct l; [reflexivity | unfold blen; simpl; lia]. Qed.

Lemma load_ok (m : list byte) (off n : Z) :
  0 <= off -> 0 <= n -> off + n <= blen m ->
  load m off n = Done (firstn (Z.to_nat n) (skipn (Z.to_nat off) m)).
Proof.
  intros Ho Hn Hb. unfold load.
  destruct (0 <=? off) eqn:E1; [| lia].
  destruct (0 <=? n) eqn:E2; [| lia].
  destruct (off + n <=? blen m) eqn:E3; [reflexivity | lia].
Qed.

Lemma load_blen (m : list byte) (off n : Z) (bs : list byte) :
  load m off n = Done bs -> blen bs = n /\ 0 <= off /\ 0 <= n /\ off + n <= blen m.
Proof.
  unfold load.
  destruct (0 <=? off) eqn:E1; simpl; [| discriminate].
  destruct (0 <=? n) eqn:E2; simpl; [| discriminate].
  destruct (off + n <=? blen m) eqn:E3; [| discriminate].
  intros H. injection H as <-.
  rewrite blen_firstn; [lia |].
  rewrite blen_skipn; lia.
Qed.

Lemma load_out_of_bounds (m : list byte) (off n : Z) :
  blen m < off + n -> load m off n = Undef OutOfBounds.
Proof.
  intros H. unfold load.
  destruct (off + n <=? blen m) eqn:E; [lia |].
  now rewrite andb_false_r.
Qed.

Lemma store_ok (m : list byte) (off : Z) (bs : list byte) :
  0 <= off -> off + blen bs <= blen m ->
  store m off bs =
    Done (firstn (Z.to_nat off) m ++ bs ++ skipn (Z.to_nat (off + blen bs)) m).
Proof.
  intros Ho Hb. unfold store.
  destruct (0 <=? off) eqn:E1; [| lia].
  destruct (off + blen bs <=? blen m) eqn:E2; [reflexivity | lia].
Qed.

Lemma store_blen (m : list byte) (off : Z) (bs m1 : list byte) :
  store m off bs = Done m1 -> blen m1 = blen m.
Proof.
  unfold store.
  destruct (0 <=? off) eqn:E1; simpl; [| discriminate].
  destruct (off + blen bs <=? blen m) eqn:E2; [| discriminate].
  intros H. injection H as <-.
  pose proof (blen_nonneg bs).
  rewrite !blen_app, blen_firstn, blen_skipn; lia.
Qed.

Lemma store_nil (m : list byte) (off : Z) :
  0 <= off <= blen m -> store m off [] = Done m.
Proof.
  intros H.
  assert (E : off + blen (@nil byte) = off) by (unfold blen; simpl; lia).
  rewrite store_ok by lia.
  rewrite E. simpl. now rewrite firstn_skipn.
Qed.

Lemma memcpy_ok (dst : list byte) (doff : Z) (src : list byte) (soff n : Z) :
  0 <= soff -> 0 <= n -> soff + n <= blen src ->
  0 <= doff -> doff + n <= blen dst ->
  memcpy dst doff src soff n =
    Done (firstn (Z.to_nat doff) dst
          ++ firstn (Z.to_nat n) (skipn (Z.to_nat soff) src)
          ++ skipn (Z.to_nat (doff + n)) dst).
Proof.
  intros H1 H2 H3 H4 H5. unfold memcpy.
  rewrite load_ok by lia. simpl.
  assert (E : blen (firstn (Z.to_nat n) (skipn (Z.to_nat soff) src)) = n).
  { apply blen_firstn. rewrite blen_skipn; lia. }
  rewrite store_ok by lia. now rewrite E.
Qed.

Lemma memcpy_blen (dst : list byte) (doff : Z) (src : list byte) (soff n : Z)
      (m : list byte) :
  memcpy dst doff src soff n = Done m -> blen m = blen dst.
Proof.
  unfold memcpy. destruct (load src soff n); simpl; try discriminate.
  apply store_blen.
Qed.

Lemma memcpy_defined (dst : list byte) (doff : Z) (src : list byte) (soff n : Z) :
  0 <= soff -> 0 <= n -> soff + n <= blen src ->
  0 <= doff -> doff + n <= blen dst ->
  exists m, memcpy dst doff src soff n = Done m /\ blen m = blen dst.
Proof.
  intros H1 H2 H3 H4 H5. eexists. split.
  - now apply memcpy_ok.
  - eapply memcpy_blen. now apply memcpy_ok.
Qed.

(** ** The static helpers on allocated buffers *)

Lemma size_rem_ok (x y : Z) : y <> 0 -> size_rem x y = Done (x mod y).
Proof.
  intros H. unfold size_rem. destruct (y =? 0) eqn:E; [lia | reflexivity].
Qed.

Lemma tailpos_ok (b : sgs_buffer) :
  capacity b <> 0 ->
  tailpos b = Done (to_size_t (position b + size b) mod capacity b).
Proof. intros H. unfold tailpos. now apply size_rem_ok. Qed.

Lemma tailpos_range (b : sgs_buffer) :
  allocated b -> exists t, tailpos b = Done t /\ 0 <= t < capacity b.
Proof.
  intros [Hc _ _ _]. eexists. split.
  - apply tailpos_ok. lia.
  - apply Z.mod_pos_bound. lia.
Qed.

(** The writable run of an allocated buffer is never empty and ends
    inside the block: also when the buffer is full. *)
Lemma writable_len_range (b : sgs_buffer) :
  allocated b ->
  exists t w, tailpos b = Done t /\ writable_len b = Done w /\
              0 <= t /\ 0 < w /\ t + w <= capacity b.
Proof.
  intros Ha. destruct (tailpos_range b Ha) as (t & Et & Ht).
  destruct Ha as [Hc _ Hp _]. rewrite PTRDIFF_MAX_eq in Hc.
  unfold writable_len. rewrite Et. simpl.
  destruct (position b <=? t) eqn:E.
  - exists t, (capacity b - t). rewrite to_size_t_small by (rewrite SIZE_MOD_eq; lia).
    repeat split; lia.
  - exists t, (position b - t). rewrite to_size_t_small by (rewrite SIZE_MOD_eq; lia).
    repeat split; lia.
Qed.

Lemma readable_len_cases (b : sgs_buffer) :
  allocated b ->
  exists r, readable_len b = Done r /\
            (r = size b \/ r = capacity b - position b).
Proof.
  intros Ha. destruct (tailpos_range b Ha) as (t & Et & Ht).
  destruct Ha as [Hc _ Hp _]. rewrite PTRDIFF_MAX_eq in Hc.
  unfold readable_len. rewrite Et. simpl.
  destruct (position b <=? t).
  - exists (size b). auto.
  - exists (capacity b - position b).
    rewrite to_size_t_small by (rewrite SIZE_MOD_eq; lia). auto.
Qed.

Lemma allocatedb_sound (b : sgs_buffer) : allocatedb b = true -> allocated b.
Proof.
  unfold allocatedb. rewrite !andb_true_iff. intros H.
  constructor; lia.
Qed.

Lemma set_buf_same (b : sgs_buffer) : set_buf b (buf b) = b.
Proof. now destruct b. Qed.

Lemma created_allocated (c : Z) (m : list byte) (b : sgs_buffer) :
  0 < c <= PTRDIFF_MAX -> blen m = c ->
  sgs_buffer_create c true (Some m) = Some b ->
  wf b /\ size b = 0 /\ position b = 0 /\ capacity b = c /\ buf b = m.
Proof.
  intros Hc Hm H. injection H as <-. simpl.
  repeat split; simpl; try lia; rewrite SIZE_MOD_eq; lia.
Qed.

(** ** Zero-length operations *)

(** C10: on every allocated buffer, empty or full, [sgs_buffer_peek] and
    [sgs_buffer_read] of 0 bytes and [sgs_buffer_write] of 0 bytes return
    0 and leave the caller's block and the whole buffer (size, position,
    stored bytes) as they were. *)
Theorem zero_length_operations (b : sgs_buffer) (data : list byte) :
  allocated b ->
  sgs_buffer_peek b data 0 = Done (0, data) /\
  sgs_buffer_read b data 0 = Done (0, data, b) /\
  sgs_buffer_write b data 0 = Done (0, b, None).
Proof.
  intros Ha.
  assert (Hpeek : sgs_buffer_peek b data 0 = Done (0, data)).
  { destruct (readable_len_cases b Ha) as (r & Er & Hr).
    destruct Ha as [Hc Hb Hp Hs].
    unfold sgs_buffer_peek. rewrite Er. simpl.
    destruct (size b <? 0) eqn:E1; [lia |].
    destruct (0 <=? r) eqn:E2; [| lia].
    unfold memcpy. rewrite load_ok by lia. simpl.
    rewrite store_nil by (pose proof (blen_nonneg data); lia).
    reflexivity. }
  repeat split.
  - exact Hpeek.
  - unfold sgs_buffer_read. rewrite Hpeek. simpl.
    destruct Ha as [Hc Hb Hp Hs]. rewrite PTRDIFF_MAX_eq in Hc.
    rewrite size_rem_ok by lia. simpl.
    rewrite Z.add_0_r, Z.sub_0_r.
    rewrite (to_size_t_small (position b)) by (rewrite SIZE_MOD_eq; lia).
    rewrite (to_size_t_small (size b)) by lia.
    rewrite Z.mod_small by lia.
    now destruct b.
  - destruct (writable_len_range b Ha) as (t & w & Et & Ew & Ht & Hw & Htw).
    destruct Ha as [Hc Hb Hp Hs].
    unfold sgs_buffer_write. rewrite Ew. simpl.
    pose proof (to_size_t_range (capacity b - size b)) as Hr.
    unfold sgs_buffer_remaining_capacity.
    destruct (to_size_t (capacity b - size b) <? 0) eqn:E1; [lia |].
    destruct (0 <=? w) eqn:E2; [| lia].
    rewrite Et. simpl. unfold memcpy.
    rewrite load_ok by (pose proof (blen_nonneg data); lia). simpl.
    rewrite store_nil by lia. simpl.
    rewrite Z.add_0_r, to_size_t_small by lia.
    now destruct b.
Qed.

Lemma zero_length_operations_witness :
  sgs_buffer_peek (mkBuffer 2 1 2 (bytes_of "CB")) [] 0 = Done (0, []) /\
  sgs_buffer_read (mkBuffer 2 1 2 (bytes_of "CB")) [] 0
    = Done (0, [], mkBuffer 2 1 2 (bytes_of "CB")) /\
  sgs_buffer_write (mkBuffer 2 1 2 (bytes_of "CB")) [] 0
    = Done (0, mkBuffer 2 1 2 (bytes_of "CB"), None).
Proof.
  apply (zero_length_operations (mkBuffer 2 1 2 (bytes_of "CB")) []).
  apply allocatedb_sound. reflexivity.
Defined.

(** ** Failure of peek, read and write *)

(** C7: [sgs_buffer_peek] and [sgs_buffer_read] return -1 exactly when
    [len] exceeds the stored size, and then leave the caller's block and
    the buffer (size and position included) as they were. *)
Theorem peek_read_insufficient_data (b : sgs_buffer) (data : list byte) (len : Z) :
  capacity b <> 0 ->
  (size b < len ->
     sgs_buffer_peek b data len = Done (-1, data) /\
     sgs_buffer_read b data len = Done (-1, data, b)) /\
  ((exists d, sgs_buffer_peek b data len = Done (-1, d)) <-> size b < len) /\
  ((exists d b', sgs_buffer_read b data len = Done (-1, d, b')) <-> size b < len).
Proof.
  intros Hc.
  assert (Hr : exists r, readable_len b = Done r).
  { unfold readable_len. rewrite tailpos_ok by exact Hc. simpl.
    destruct (position b <=? _); eauto. }
  destruct Hr as (r & Er).
  assert (Hfail : size b < len -> sgs_buffer_peek b data len = Done (-1, data)).
  { intros Hl. unfold sgs_buffer_peek. rewrite Er. simpl.
    destruct (size b <? len) eqn:E; [reflexivity | lia]. }
  assert (Hok : len <= size b ->
                forall x d, sgs_buffer_peek b data len = Done (x, d) -> x = 0).
  { intros Hl x d. unfold sgs_buffer_peek. rewrite Er. simpl.
    destruct (size b <? len) eqn:E; [lia |].
    destruct (len <=? r).
    - destruct (memcpy data 0 (buf b) (position b) len); simpl; congruence.
    - destruct (memcpy data 0 (buf b) (position b) r) as [d1 | |]; simpl;
        try congruence.
      destruct (memcpy d1 r (buf b) 0 _); simpl; congruence. }
  split; [| split].
  - intros Hl. split; [now apply Hfail |].
    unfold sgs_buffer_read. rewrite (Hfail Hl). reflexivity.
  - split.
    + intros (d & Hd). destruct (Z.lt_ge_cases (size b) len) as [? | Hl]; [assumption |].
      specialize (Hok Hl _ _ Hd). discriminate.
    + intros Hl. exists data. now apply Hfail.
  - split.
    + intros (d & b' & Hd).
      destruct (Z.lt_ge_cases (size b) len) as [? | Hl]; [assumption |].
      exfalso. revert Hd. unfold sgs_buffer_read.
      destruct (sgs_buffer_peek b data len) as [[x d1] | |] eqn:Ep; simpl;
        try discriminate.
      rewrite (Hok Hl _ _ eq_refl). simpl.
      destruct (size_rem _ _); simpl; discriminate.
    + intros Hl. exists data, b.
      unfold sgs_buffer_read. rewrite (Hfail Hl). reflexivity.
Qed.

Lemma peek_read_insufficient_data_witness :
  sgs_buffer_peek (mkBuffer 8 3 2 (bytes_of "ABCDEFGH")) (zeros 3) 3
    = Done (-1, zeros 3) /\
  sgs_buffer_read (mkBuffer 8 3 2 (bytes_of "ABCDEFGH")) (zeros 3) 3
    = Done (-1, zeros 3, mkBuffer 8 3 2 (bytes_of "ABCDEFGH")).
Proof.
  apply (peek_read_insufficient_data
           (mkBuffer 8 3 2 (bytes_of "ABCDEFGH")) (zeros 3) 3); simpl; lia.
Defined.

(** C6: on a buffer that satisfies the invariants, [sgs_buffer_write]
    fails (-1, [errno] set to [ENOBUFS]) exactly when [len] exceeds the
    remaining capacity, and then leaves the buffer as it was; otherwise
    it returns 0, [size] grows by exactly [len], and [position] and
    [capacity] stay. *)
Theorem write_all_or_nothing (b : sgs_buffer) (data : list byte) (len : Z) :
  wf b -> 0 <= len < SIZE_MOD ->
  (sgs_buffer_remaining_capacity b < len ->
     sgs_buffer_write b data len = Done (-1, b, Some ENOBUFS)) /\
  (len <= sgs_buffer_remaining_capacity b -> len <= blen data ->
     exists m, blen m = capacity b /\
       sgs_buffer_write b data len =
         Done (0, mkBuffer (capacity b) (position b) (size b + len) m, None)) /\
  ((exists b' e, sgs_buffer_write b data len = Done (-1, b', e))
     <-> sgs_buffer_remaining_capacity b < len).
Proof.
  intros [Ha Hsz] Hlen.
  destruct (writable_len_range b Ha) as (t & w & Et & Ew & Ht & Hw & Htw).
  destruct Ha as [Hc Hb Hp Hs]. rewrite PTRDIFF_MAX_eq in Hc.
  rewrite SIZE_MOD_eq in Hlen, Hs.
  assert (Hrem : sgs_buffer_remaining_capacity b = capacity b - size b).
  { unfold sgs_buffer_remaining_capacity.
    apply to_size_t_small. rewrite SIZE_MOD_eq. lia. }
  assert (Hfail : sgs_buffer_remaining_capacity b < len ->
                  sgs_buffer_write b data len = Done (-1, b, Some ENOBUFS)).
  { intros Hl. unfold sgs_buffer_write. rewrite Ew. simpl.
    destruct (sgs_buffer_remaining_capacity b <? len) eqn:E; [reflexivity | lia]. }
  assert (Hnofail : len <= sgs_buffer_remaining_capacity b ->
                    forall x b' e, sgs_buffer_write b data len = Done (x, b', e) ->
                                   x = 0).
  { intros Hl x b' e. unfold sgs_buffer_write. rewrite Ew. simpl.
    destruct (sgs_buffer_remaining_capacity b <? len) eqn:E; [lia |].
    match goal with |- bind ?m _ = _ -> _ => destruct m; simpl; congruence end. }
  split; [exact Hfail | split].
  - intros Hl Hd. rewrite Hrem in Hl.
    unfold sgs_buffer_write. rewrite Ew. simpl.
    destruct (sgs_buffer_remaining_capacity b <? len) eqn:E; [lia |].
    rewrite Et. simpl.
    destruct (len <=? w) eqn:E1.
    + destruct (memcpy_defined (buf b) t data 0 len) as (m & Em & Hm); try lia.
      rewrite Em. simpl. exists m. split; [lia |].
      rewrite to_size_t_small by (rewrite SIZE_MOD_eq; lia). reflexivity.
    + destruct (memcpy_defined (buf b) t data 0 w) as (m1 & Em1 & Hm1); try lia.
      rewrite Em1. simpl.
      rewrite (to_size_t_small (len - w)) by (rewrite SIZE_MOD_eq; lia).
      destruct (memcpy_defined m1 0 data w (len - w)) as (m2 & Em2 & Hm2);
        try lia.
      rewrite Em2. simpl. exists m2. split; [lia |].
      rewrite to_size_t_small by (rewrite SIZE_MOD_eq; lia). reflexivity.
  - split.
    + intros (b' & e & Hw'). 
      destruct (Z.lt_ge_cases (sgs_buffer_remaining_capacity b) len) as [? | Hl];
        [assumption |].
      specialize (Hnofail Hl _ _ _ Hw'). discriminate.
    + intros Hl. exists b, (Some ENOBUFS). now apply Hfail.
Qed.

Lemma write_all_or_nothing_witness :
  sgs_buffer_write (mkBuffer 8 3 2 (bytes_of "ABCDEFGH")) (bytes_of "0123456") 7
    = Done (-1, mkBuffer 8 3 2 (bytes_of "ABCDEFGH"), Some ENOBUFS).
Proof.
  apply (write_all_or_nothing
           (mkBuffer 8 3 2 (bytes_of "ABCDEFGH")) (bytes_of "0123456") 7).
  - split; [apply allocatedb_sound; reflexivity | simpl; lia].
  - rewrite SIZE_MOD_eq. lia.
  - reflexivity.
Defined.

(** ** The scenario with capacity 8 *)

(** C8: on a fresh buffer of capacity 8 (whatever the block holds),
    writing "ABCDE" gives size 5; reading 3 bytes returns "ABC" and
    leaves size 2, position 3; with 6 bytes of capacity remaining,
    writing "FGHIJ" succeeds with size 7 and wraps (3 bytes go to the end
    of the block, "IJ" to its start); reading 7 bytes returns "DEFGHIJ". *)
Theorem scenario_capacity_8 (x0 x1 x2 x3 x4 x5 x6 x7 : byte) (d0 d1 d2 : byte)
        (e0 e1 e2 e3 e4 e5 e6 : byte) :
  exists b0 b1 b2 b3 b4,
    sgs_buffer_create 8 true (Some [x0; x1; x2; x3; x4; x5; x6; x7]) = Some b0 /\
    sgs_buffer_write b0 (bytes_of "ABCDE") 5 = Done (0, b1, None) /\
    sgs_buffer_size b1 = 5 /\
    sgs_buffer_read b1 [d0; d1; d2] 3 = Done (0, bytes_of "ABC", b2) /\
    sgs_buffer_size b2 = 2 /\ position b2 = 3 /\
    sgs_buffer_remaining_capacity b2 = 6 /\
    writable_len b2 = Done 3 /\
    sgs_buffer_write b2 (bytes_of "FGHIJ") 5 = Done (0, b3, None) /\
    sgs_buffer_size b3 = 7 /\ position b3 = 3 /\
    buf b3 = bytes_of "IJCDEFGH" /\
    sgs_buffer_read b3 [e0; e1; e2; e3; e4; e5; e6] 7
      = Done (0, bytes_of "DEFGHIJ", b4) /\
    sgs_buffer_size b4 = 0.
Proof.
  do 5 eexists.
  split; [reflexivity |].
  split; [vm_compute; reflexivity |].
  split; [reflexivity |].
  split; [vm_compute; reflexivity |].
  split; [reflexivity |].
  split; [reflexivity |].
  split; [reflexivity |].
  split; [reflexivity |].
  split; [vm_compute; reflexivity |].
  split; [reflexivity |].
  split; [reflexivity |].
  split; [reflexivity |].
  split; [vm_compute; reflexivity | reflexivity].
Qed.

(** ** A full buffer whose head is not at offset 0 *)

(** C1: on a reachable buffer the operations leave the block. Create a
    buffer of capacity 2, write 1 byte, read it, write 2 bytes: the
    buffer is full with position 1. Then [readable_len] is 2, and
    [sgs_buffer_peek], [sgs_buffer_read] and [sgs_buffer_write_to_fd]
    read the 2 bytes from offset 1 of the 2-byte block. *)
Theorem full_wrapped_buffer_out_of_bounds (x0 x1 d0 : byte) :
  exists b0 b1 b2,
    sgs_buffer_create 2 true (Some [x0; x1]) = Some b0 /\
    sgs_buffer_write b0 (bytes_of "A") 1 = Done (0, b1, None) /\
    sgs_buffer_read b1 [d0] 1 = Done (0, bytes_of "A", b2) /\
    sgs_buffer_write b2 (bytes_of "BC") 2 = Done (0, full_wrapped, None) /\
    wf full_wrapped /\
    readable_len full_wrapped = Done 2 /\
    load (buf full_wrapped) (position full_wrapped) 2 = Undef OutOfBounds /\
    (forall data, sgs_buffer_peek full_wrapped data 2 = Undef OutOfBounds) /\
    (forall data, sgs_buffer_read full_wrapped data 2 = Undef OutOfBounds) /\
    (forall fuel fd h,
        sgs_buffer_write_to_fd (S fuel) fd h full_wrapped = Undef OutOfBounds).
Proof.
  do 3 eexists.
  split; [reflexivity |].
  split; [vm_compute; reflexivity |].
  split; [vm_compute; reflexivity |].
  split; [vm_compute; reflexivity |].
  split; [split; [apply allocatedb_sound; reflexivity | simpl; lia] |].
  split; [reflexivity |].
  split; [reflexivity |].
  split; [| split]; reflexivity.
Qed.

(** C9: peeking does not succeed on every buffer. On a full buffer whose
    position is not 0, [readable_len] returns the whole size, and
    [sgs_buffer_peek] of more bytes than lie between the head and the end
    of the block (with [len <= size]) copies from beyond the block instead
    of returning the stored bytes. *)
Theorem peek_full_wrapped_undefined (b : sgs_buffer) (data : list byte) (len : Z) :
  allocated b -> size b = capacity b -> 0 < position b ->
  capacity b - position b < len <= size b ->
  sgs_buffer_peek b data len = Undef OutOfBounds.
Proof.
  intros [Hc Hb Hp Hs] Hfull Hpos Hlen. rewrite PTRDIFF_MAX_eq in Hc.
  unfold sgs_buffer_peek, readable_len.
  rewrite tailpos_ok by lia. simpl.
  rewrite to_size_t_small by (rewrite SIZE_MOD_eq; lia).
  rewrite Hfull.
  replace ((position b + capacity b) mod capacity b) with (position b).
  2:{ apply Z.mod_unique with (q := 1); lia. }
  rewrite Z.leb_refl. simpl.
  destruct (capacity b <? len) eqn:E1; [lia |].
  destruct (len <=? capacity b) eqn:E2; [| lia].
  unfold memcpy. rewrite load_out_of_bounds by lia. reflexivity.
Qed.

Lemma peek_full_wrapped_undefined_witness :
  sgs_buffer_peek full_wrapped (zeros 2) 2 = Undef OutOfBounds.
Proof.
  apply (peek_full_wrapped_undefined full_wrapped (zeros 2) 2).
  - apply allocatedb_sound. reflexivity.
  - reflexivity.
  - simpl. lia.
  - simpl. lia.
Defined.

(** ** Reading from a descriptor *)

(** C2: [sgs_buffer_read_from_fd] breaks [size <= capacity]. On a fresh
    buffer of capacity 2 the first [read] asks for 2 bytes and gets them;
    the buffer is full, yet [writable_len] is 2 again, so a second [read]
    asks for 2 bytes, gets 1, and the call returns 3 with [size] = 3. *)
Theorem read_from_fd_breaks_size_bound (x0 x1 : byte) (fuel : nat) :
  exists b0 b1,
    sgs_buffer_create 2 true (Some [x0; x1]) = Some b0 /\
    wf b0 /\
    sgs_buffer_read_from_fd (S (S fuel)) two_then_one [] b0 =
      Done (3, b1, [(2, ReadBytes (zeros 2)); (2, ReadBytes (zeros 1))]) /\
    sgs_buffer_capacity b1 = 2 /\ sgs_buffer_size b1 = 3 /\
    ~ wf b1.
Proof.
  do 2 eexists.
  split; [reflexivity |].
  split; [split; [apply allocatedb_sound; reflexivity | simpl; lia] |].
  split; [vm_compute; reflexivity |].
  split; [reflexivity |].
  split; [reflexivity |].
  intros [_ H]. simpl in H. lia.
Qed.

Lemma allocated_commit (b : sgs_buffer) (m : list byte) (n : Z) :
  allocated b -> blen m = blen (buf b) ->
  allocated (set_size (set_buf b m) (to_size_t n)).
Proof.
  intros [Hc Hb Hp Hs] Hm. constructor; simpl; try assumption.
  - lia.
  - apply to_size_t_range.
Qed.

Lemma read_from_fd_loop_eager (fuel : nat) :
  forall h b total w,
    allocated b -> writable_len b = Done w ->
    read_from_fd_loop fuel eager_reader h b total w = OutOfFuel.
Proof.
  induction fuel as [| fuel IH]; intros h b total w Ha Ew;
    destruct (writable_len_range b Ha) as (t & w' & Et & Ew' & Ht & Hw & Htw);
    rewrite Ew in Ew'; injection Ew' as <-;
    simpl; destruct (0 <? w) eqn:E0; try lia.
  - reflexivity.
  - pose proof Ha as [Hc Hb Hp Hs]. rewrite PTRDIFF_MAX_eq in Hc.
    rewrite Et. simpl. unfold sys_read, eager_reader.
    assert (Hz : blen (zeros w) = w) by (apply blen_zeros; lia).
    destruct (store (buf b) t (zeros w)) as [m | |] eqn:Es;
      try (rewrite store_ok in Es by lia; discriminate).
    simpl. rewrite Hz.
    rewrite (to_size_t_small w) by (rewrite SIZE_MOD_eq; lia).
    rewrite to_size_t_minus_one, SIZE_MOD_eq.
    destruct (w =? 18446744073709551616 - 1) eqn:E1; [lia |].
    destruct (w =? 0) eqn:E2; [lia |].
    rewrite Z.eqb_refl. simpl.
    assert (Ha1 : allocated (set_size (set_buf b m) (to_size_t (size b + w)))).
    { apply allocated_commit; [assumption | eapply store_blen; eassumption]. }
    destruct (writable_len_range _ Ha1) as (t1 & w1 & _ & Ew1 & _).
    rewrite Ew1. simpl. now apply IH.
Qed.

(** C4: the loop of [sgs_buffer_read_from_fd] does not stop when the
    buffer is full. Against a descriptor that always delivers the bytes
    requested, the call is still running after any number of iterations,
    from every allocated buffer: [writable_len] is never 0. *)
Theorem read_from_fd_eager_never_returns (b : sgs_buffer) (fuel : nat) (h : read_log) :
  allocated b ->
  sgs_buffer_read_from_fd fuel eager_reader h b = OutOfFuel.
Proof.
  intros Ha. unfold sgs_buffer_read_from_fd.
  destruct (writable_len_range b Ha) as (t & w & _ & Ew & _).
  rewrite Ew. simpl. now apply read_from_fd_loop_eager.
Qed.

Lemma read_from_fd_eager_never_returns_witness :
  sgs_buffer_read_from_fd 1000 eager_reader [] (mkBuffer 4 0 0 (zeros 4))
    = OutOfFuel.
Proof.
  apply (read_from_fd_eager_never_returns (mkBuffer 4 0 0 (zeros 4)) 1000 []).
  apply allocatedb_sound. reflexivity.
Defined.

(** *** Transcripts *)

Lemma transferred_app (l1 l2 : read_log) :
  transferred (l1 ++ l2) = transferred l1 + transferred l2.
Proof.
  induction l1 as [| [n r] l1 IH]; simpl; [reflexivity | rewrite IH; lia].
Qed.

Lemma transferred_nonneg (l : read_log) : 0 <= transferred l.
Proof.
  induction l as [| [n r] l IH]; simpl; [lia |].
  destruct r; unfold reply_bytes, blen; lia.
Qed.

Lemma scripted_respects_requests (script : list read_reply) :
  respects_requests (scripted script).
Proof.
  intros h n Hn. unfold scripted.
  destruct (nth_error script (length h)) as [[| bs] |]; try exact I.
  - unfold blen. rewrite length_firstn. lia.
  - unfold blen. simpl. lia.
Qed.

Lemma scripted_runs_dry (script : list read_reply) :
  runs_dry (scripted script) (length script).
Proof.
  intros h n Hh Hn. unfold scripted.
  apply nth_error_None in Hh. rewrite Hh.
  unfold short_reply, blen. simpl. lia.
Qed.

(** *** What [sgs_buffer_read_from_fd] returns *)

Section ReadLoop.

Variable fd : reader.
Variable N : nat.
Hypothesis Hresp : respects_requests fd.
Hypothesis Hdry : runs_dry fd N.

Lemma read_from_fd_loop_returns (fuel : nat) :
  forall h b total w,
    allocated b -> writable_len b = Done w -> 0 <= total < SIZE_MOD ->
    (N - length h < fuel)%nat ->
    exists r b' pre n last,
      read_from_fd_loop fuel fd h b total w
        = Done (r, b', h ++ pre ++ [(n, last)]) /\
      Forall full_entry pre /\ short_reply n last /\
      capacity b' = capacity b /\ position b' = position b /\
      size b' = to_size_t (size b + transferred (pre ++ [(n, last)])) /\
      r = read_from_fd_result last
            (total + transferred (pre ++ [(n, last)])).
Proof.
  induction fuel as [| fuel IH]; intros h b total w Ha Ew Ht Hf; [lia |].
  destruct (writable_len_range b Ha) as (t & w' & Et & Ew' & Ht0 & Hw & Htw).
  rewrite Ew in Ew'. injection Ew' as <-.
  pose proof Ha as [Hc Hb Hp Hs]. rewrite PTRDIFF_MAX_eq in Hc.
  simpl. destruct (0 <? w) eqn:E0; [| lia].
  rewrite Et. simpl. unfold sys_read.
  pose proof (Hresp h w ltac:(lia)) as Hr.
  destruct (fd h w) as [| bs] eqn:Efd.
  - (* error *)
    simpl.
    exists (-1), (set_buf b (buf b)), [], w, ReadError.
    simpl. rewrite Z.add_0_r, to_size_t_small by lia.
    repeat split; auto.
  - pose proof (blen_nonneg bs) as Hbs.
    destruct (store (buf b) t bs) as [m | |] eqn:Es;
      try (rewrite store_ok in Es by lia; discriminate).
    pose proof (store_blen _ _ _ _ Es) as Hm.
    simpl.
    rewrite (to_size_t_small (blen bs)) by (rewrite SIZE_MOD_eq; lia).
    rewrite to_size_t_minus_one, SIZE_MOD_eq.
    destruct (blen bs =? 18446744073709551616 - 1) eqn:E1; [lia |].
    destruct (blen bs =? 0) eqn:E2.
    + (* end of stream *)
      assert (bs = []) by (apply blen_nil_inv; lia). subst bs.
      exists 0, (set_buf b m), [], w, (ReadBytes []).
      simpl.
      replace (blen (@nil byte)) with 0 by reflexivity.
      rewrite !Z.add_0_r, to_size_t_small by lia.
      repeat split; auto. lia.
    + destruct (blen bs =? w) eqn:E3; simpl.
      * (* the whole request: next iteration *)
        assert (Hbw : blen bs = w) by lia.
        assert (Hlt : (length h < N)%nat).
        { destruct (Nat.lt_ge_cases (length h) N) as [? | Hge]; [assumption |].
          pose proof (Hdry h w Hge Hw) as Hs'. rewrite Efd in Hs'.
          simpl in Hs'. lia. }
        set (b1 := set_size (set_buf b m) (to_size_t (size b + blen bs))).
        assert (Ha1 : allocated b1).
        { apply allocated_commit; assumption. }
        destruct (writable_len_range _ Ha1) as (t1 & w1 & _ & Ew1 & _).
        rewrite Ew1. simpl.
        destruct (IH (h ++ [(w, ReadBytes bs)]) b1
                     (to_size_t (total + blen bs)) w1 Ha1 Ew1
                     (to_size_t_range _)) as
            (r & b' & pre & n & last & Hrun & Hfull & Hshort & Hcap & Hpos
             & Hsize & Hret).
        { rewrite length_app. simpl. lia. }
        exists r, b', ((w, ReadBytes bs) :: pre), n, last.
        split; [rewrite Hrun, <- app_assoc; reflexivity |].
        split; [constructor; [exact Hbw | exact Hfull] |].
        split; [exact Hshort |].
        split; [exact Hcap |].
        split; [exact Hpos |].
        split.
        -- rewrite Hsize. unfold b1. simpl.
           rewrite to_size_t_add_l. f_equal. lia.
        -- rewrite Hret. simpl.
           destruct last as [| [| x bs']]; simpl; try reflexivity.
           rewrite to_size_t_add_l. do 2 f_equal. lia.
      * (* a partial transfer *)
        destruct bs as [| x bs']; [unfold blen in E2; simpl in E2; lia |].
        eexists _, _, [], w, (ReadBytes (x :: bs')).
        split; [reflexivity |].
        simpl. rewrite ?Z.add_0_r.
        repeat split; auto. lia.
Qed.

End ReadLoop.

Lemma to_int_small (x : Z) : 0 <= x < 2 ^ 31 -> to_int x = x.
Proof.
  intros H. unfold to_int.
  change (2 ^ 31) with 2147483648 in *. change (2 ^ 32) with 4294967296.
  rewrite Z.mod_small; lia.
Qed.

(** C3, as stated, fails: with the head at offset 2 of an empty buffer of
    capacity 4, a descriptor that delivers the 2 bytes first requested and
    then reports the end of the stream makes the call return 0, although
    2 bytes were transferred and are counted in [size]. *)
Lemma read_from_fd_eof_after_data :
  (exists b1 log,
      sgs_buffer_read_from_fd 2 (scripted [ReadBytes (zeros 2)]) []
                              (mkBuffer 4 2 0 (zeros 4))
        = Done (0, b1, log) /\
      log = [(2, ReadBytes (zeros 2)); (2, ReadBytes [])] /\
      transferred log = 2 /\ sgs_buffer_size b1 = 2) /\
  ~ returns_cumulative_count 2 (scripted [ReadBytes (zeros 2)])
      (mkBuffer 4 2 0 (zeros 4)).
Proof.
  split.
  - do 2 eexists. split; [vm_compute; reflexivity |].
    repeat split; reflexivity.
  - intros H. specialize (H _ _ _ eq_refl). vm_compute in H. discriminate.
Qed.

(** ** Wrap-around *)

Lemma firstn_blen_app {A : Type} (n : Z) (l1 l2 : list A) :
  blen l1 = n -> firstn (Z.to_nat n) (l1 ++ l2) = l1.
Proof.
  unfold blen. intros H. rewrite firstn_app.
  replace (Z.to_nat n - length l1)%nat with 0%nat by lia.
  rewrite firstn_all2 by lia. simpl. apply app_nil_r.
Qed.

Lemma skipn_blen_app {A : Type} (n : Z) (l1 l2 : list A) :
  blen l1 = n -> skipn (Z.to_nat n) (l1 ++ l2) = l2.
Proof.
  unfold blen. intros H. rewrite skipn_app.
  replace (Z.to_nat n - length l1)%nat with 0%nat by lia.
  rewrite skipn_all2 by lia. reflexivity.
Qed.

Lemma firstn_blen_all {A : Type} (n : Z) (l : list A) :
  blen l <= n -> firstn (Z.to_nat n) l = l.
Proof. unfold blen. intros H. apply firstn_all2. lia. Qed.

Lemma skipn_blen_all {A : Type} (n : Z) (l : list A) :
  blen l <= n -> skipn (Z.to_nat n) l = [].
Proof. unfold blen. intros H. apply skipn_all2. lia. Qed.

Lemma tailpos_mk (c p s : Z) (m : list byte) :
  c <> 0 -> tailpos (mkBuffer c p s m) = Done (to_size_t (p + s) mod c).
Proof. intros H. now rewrite tailpos_ok. Qed.

Section Wraparound.

Variable c : Z.
Hypothesis Hc : 0 < c <= PTRDIFF_MAX.

Lemma capacity_size_t : 0 < c < SIZE_MOD.
Proof. rewrite PTRDIFF_MAX_eq in Hc. rewrite SIZE_MOD_eq. lia. Qed.

(** Writing [n] bytes to a fresh buffer puts them at the start of the
    block. *)
Lemma fresh_write (n : Z) (m d : list byte) :
  0 <= n <= c -> blen m = c -> blen d = n ->
  sgs_buffer_write (mkBuffer c 0 0 m) d n
    = Done (0, mkBuffer c 0 n (d ++ skipn (Z.to_nat n) m), None).
Proof.
  intros Hn Hm Hd. pose proof capacity_size_t as Hcs.
  unfold sgs_buffer_write, writable_len, sgs_buffer_remaining_capacity.
  rewrite tailpos_mk by lia. cbn [capacity position size buf bind].
  rewrite Z.add_0_r, (to_size_t_small 0), Z.mod_0_l, Z.sub_0_r by lia.
  rewrite Z.leb_refl, (to_size_t_small c) by lia.
  cbn [bind].
  destruct (c <? n) eqn:E1; [lia |].
  destruct (n <=? c) eqn:E2; [| lia].
  rewrite memcpy_ok by lia.
  cbn [bind set_buf set_size capacity position size buf].
  rewrite Z.add_0_l, to_size_t_small by lia.
  change (Z.to_nat 0) with 0%nat. cbn [firstn skipn app].
  rewrite firstn_blen_all by lia. reflexivity.
Qed.

(** Reading back the [n < c] bytes at the start of the block. *)
Lemma read_prefix (n : Z) (d rest o : list byte) :
  0 <= n < c -> blen d = n -> blen (d ++ rest) = c -> blen o = n ->
  sgs_buffer_read (mkBuffer c 0 n (d ++ rest)) o n
    = Done (0, d, mkBuffer c n 0 (d ++ rest)).
Proof.
  intros Hn Hd Hm Ho. pose proof capacity_size_t as Hcs.
  unfold sgs_buffer_read, sgs_buffer_peek, readable_len.
  rewrite tailpos_mk by lia. cbn [capacity position size buf bind].
  rewrite Z.add_0_l, (to_size_t_small n), (Z.mod_small n c) by lia.
  destruct (0 <=? n) eqn:E0; [| lia]. cbn [bind].
  rewrite Z.ltb_irrefl, Z.leb_refl.
  rewrite memcpy_ok by lia. cbn [bind].
  change (Z.to_nat 0) with 0%nat. cbn [firstn skipn app].
  rewrite firstn_blen_app by assumption.
  rewrite Z.add_0_l, skipn_blen_all, app_nil_r by lia.
  change (0 =? -1) with false. cbn iota.
  rewrite size_rem_ok by lia. cbn [bind set_position set_size capacity position size buf].
  rewrite Z.sub_diag, (to_size_t_small 0), Z.mod_small by lia.
  reflexivity.
Qed.

(** Reading the whole of a full buffer whose head is at offset 0. *)
Lemma read_whole (d o : list byte) :
  blen d = c -> blen o = c ->
  sgs_buffer_read (mkBuffer c 0 c d) o c = Done (0, d, mkBuffer c 0 0 d).
Proof.
  intros Hd Ho. pose proof capacity_size_t as Hcs.
  unfold sgs_buffer_read, sgs_buffer_peek, readable_len.
  rewrite tailpos_mk by lia. cbn [capacity position size buf bind].
  rewrite Z.add_0_l, (to_size_t_small c), Z.mod_same by lia.
  rewrite Z.leb_refl. cbn [bind].
  rewrite Z.ltb_irrefl, Z.leb_refl.
  rewrite memcpy_ok by lia. cbn [bind].
  change (Z.to_nat 0) with 0%nat. cbn [firstn skipn app].
  rewrite firstn_blen_all by lia.
  rewrite Z.add_0_l, skipn_blen_all, app_nil_r by lia.
  change (0 =? -1) with false. cbn iota.
  rewrite size_rem_ok by lia. cbn [bind set_position set_size capacity position size buf].
  rewrite Z.sub_diag, (to_size_t_small 0), Z.mod_same by lia.
  reflexivity.
Qed.

(** Writing [c] bytes to an empty buffer whose head is at offset
    [c - k]: the first [k] bytes go to the end of the block, the others
    to its start; two copies are made exactly when [k < c]. *)
Lemma empty_write_wrap (k : Z) (m d : list byte) :
  0 < k <= c -> blen m = c -> blen d = c ->
  write_wraps (mkBuffer c (c - k) 0 m) c = Done (k <? c) /\
  sgs_buffer_write (mkBuffer c (c - k) 0 m) d c
    = Done (0, mkBuffer c (c - k) c
                        (skipn (Z.to_nat k) d ++ firstn (Z.to_nat k) d),
            None).
Proof.
  intros Hk Hm Hd. pose proof capacity_size_t as Hcs.
  assert (Hw : writable_len (mkBuffer c (c - k) 0 m) = Done k).
  { unfold writable_len. rewrite tailpos_mk by lia.
    cbn [capacity position size buf bind].
    rewrite Z.add_0_r, (to_size_t_small (c - k)), Z.mod_small by lia.
    rewrite Z.leb_refl, to_size_t_small by lia. f_equal. lia. }
  split.
  - unfold write_wraps. rewrite Hw. cbn [bind]. f_equal.
    destruct (c <=? k) eqn:E1, (k <? c) eqn:E2; simpl; try reflexivity; lia.
  - unfold sgs_buffer_write, sgs_buffer_remaining_capacity.
    rewrite Hw, tailpos_mk by lia. cbn [capacity position size buf bind].
    rewrite Z.sub_0_r, (to_size_t_small c) by lia.
    rewrite Z.ltb_irrefl.
    rewrite Z.add_0_r, (to_size_t_small (c - k)), Z.mod_small by lia.
    destruct (c <=? k) eqn:E1.
    + (* k = c: one copy *)
      assert (k = c) by lia. subst k.
      rewrite memcpy_ok by lia.
      cbn [bind set_buf set_size capacity position size buf].
      rewrite Z.add_0_l, to_size_t_small by lia.
      rewrite Z.sub_diag. change (Z.to_nat 0) with 0%nat.
      cbn [firstn skipn app].
      rewrite Z.add_0_l, (firstn_blen_all c d), (skipn_blen_all c d),
        (skipn_blen_all c m) by lia.
      rewrite app_nil_r. reflexivity.
    + (* k < c: two copies *)
      cbn [bind]. rewrite memcpy_ok by lia. cbn [bind].
      change (Z.to_nat 0) with 0%nat. cbn [skipn].
      replace (c - k + k) with c by lia.
      rewrite (skipn_blen_all c m), app_nil_r by lia.
      assert (Hl1 : blen (firstn (Z.to_nat (c - k)) m) = c - k)
        by (apply blen_firstn; lia).
      assert (Hl2 : blen (firstn (Z.to_nat k) d) = k)
        by (apply blen_firstn; lia).
      rewrite memcpy_ok by (rewrite ?blen_app; lia).
      cbn [bind set_buf set_size capacity position size buf].
      rewrite Z.add_0_l, to_size_t_small by lia.
      change (Z.to_nat 0) with 0%nat. cbn [firstn app].
      rewrite (firstn_blen_all (c - k) (skipn (Z.to_nat k) d))
        by (rewrite blen_skipn; lia).
      rewrite skipn_blen_app by assumption.
      reflexivity.
Qed.

End Wraparound.

(** C5, as stated, fails at [k = c]: with capacity 1 and [k] = 1, the
    write of 1 byte to the fresh, empty buffer is a single copy. *)
Lemma wraparound_no_split_at_k_eq_c :
  ~ wraparound_roundtrip 1 1 (zeros 1) [] (bytes_of "A") [] (zeros 1).
Proof.
  intros (b0 & b1 & b2 & b3 & b4 & o1' & H0 & H1 & H2 & _ & H4 & _).
  injection H0 as <-.
  vm_compute in H1. injection H1 as <-.
  vm_compute in H2. injection H2 as <- <-.
  vm_compute in H4. discriminate.
Qed.

(** C5, amended: for [0 < k <= c], on a fresh buffer of capacity [c],
    writing [c - k] bytes and reading [c - k] bytes returns them and
    leaves the buffer empty with position [c - k]; writing [c] bytes then
    succeeds, through the two-copy branch exactly when [k < c], with size
    [c], the position unchanged, and the stored bytes, in order from the
    head round the end of the block, equal to the bytes written. When
    [k = c], reading [c] bytes returns the bytes written. *)
Theorem wraparound_write (c k : Z) (m d1 d2 o1 : list byte) :
  0 < c <= PTRDIFF_MAX -> 0 < k <= c ->
  blen m = c -> blen d1 = c - k -> blen d2 = c -> blen o1 = c - k ->
  exists b0 b1 b2 b3,
    sgs_buffer_create c true (Some m) = Some b0 /\
    sgs_buffer_write b0 d1 (c - k) = Done (0, b1, None) /\
    sgs_buffer_read b1 o1 (c - k) = Done (0, d1, b2) /\
    sgs_buffer_size b2 = 0 /\ position b2 = c - k /\
    write_wraps b2 c = Done (k <? c) /\
    sgs_buffer_write b2 d2 c = Done (0, b3, None) /\
    sgs_buffer_size b3 = c /\ position b3 = c - k /\
    sgs_buffer_capacity b3 = c /\
    buf b3 = skipn (Z.to_nat k) d2 ++ firstn (Z.to_nat k) d2 /\
    contents b3 = d2 /\
    (k = c -> forall o2, blen o2 = c ->
       exists b4, sgs_buffer_read b3 o2 c = Done (0, d2, b4) /\
                  sgs_buffer_size b4 = 0).
Proof.
  intros Hc Hk Hm Hd1 Hd2 Ho1.
  pose proof Hc as Hc'. rewrite PTRDIFF_MAX_eq in Hc'.
  set (m1 := d1 ++ skipn (Z.to_nat (c - k)) m).
  assert (Hm1 : blen m1 = c).
  { unfold m1. rewrite blen_app, blen_skipn; lia. }
  destruct (empty_write_wrap c Hc k m1 d2 Hk Hm1 Hd2) as [Hwraps Hwrite].
  exists (mkBuffer c 0 0 m), (mkBuffer c 0 (c - k) m1), (mkBuffer c (c - k) 0 m1),
    (mkBuffer c (c - k) c (skipn (Z.to_nat k) d2 ++ firstn (Z.to_nat k) d2)).
  split; [reflexivity |].
  split; [apply fresh_write; solve [assumption | lia] |].
  split; [apply read_prefix; solve [assumption | lia] |].
  split; [reflexivity |].
  split; [reflexivity |].
  split; [exact Hwraps |].
  split; [exact Hwrite |].
  split; [reflexivity |].
  split; [reflexivity |].
  split; [reflexivity |].
  split; [reflexivity |].
  split.
  - unfold contents. cbn [size position buf].
    rewrite skipn_blen_app by (rewrite blen_skipn; lia).
    rewrite (firstn_blen_app (c - k)) by (rewrite blen_skipn; lia).
    rewrite firstn_skipn. apply firstn_blen_all. lia.
  - intros -> o2 Ho2.
    rewrite Z.sub_diag.
    rewrite (skipn_blen_all c d2), (firstn_blen_all c d2) by lia.
    cbn [app].
    exists (mkBuffer c 0 0 d2). split; [| reflexivity].
    apply read_whole; assumption.
Qed.

Lemma wraparound_write_witness :
  exists b0 b1 b2 b3,
    sgs_buffer_create 8 true (Some (zeros 8)) = Some b0 /\
    sgs_buffer_write b0 (bytes_of "abcde") (8 - 3) = Done (0, b1, None) /\
    sgs_buffer_read b1 (zeros 5) (8 - 3) = Done (0, bytes_of "abcde", b2) /\
    sgs_buffer_size b2 = 0 /\ position b2 = 8 - 3 /\
    write_wraps b2 8 = Done (3 <? 8) /\
    sgs_buffer_write b2 (bytes_of "ABCDEFGH") 8 = Done (0, b3, None) /\
    sgs_buffer_size b3 = 8 /\ position b3 = 8 - 3 /\
    sgs_buffer_capacity b3 = 8 /\
    buf b3 = skipn (Z.to_nat 3) (bytes_of "ABCDEFGH")
             ++ firstn (Z.to_nat 3) (bytes_of "ABCDEFGH") /\
    contents b3 = bytes_of "ABCDEFGH" /\
    (3 = 8 -> forall o2, blen o2 = 8 ->
       exists b4, sgs_buffer_read b3 o2 8 = Done (0, bytes_of "ABCDEFGH", b4) /\
                  sgs_buffer_size b4 = 0).
Proof.
  apply (wraparound_write 8 3 (zeros 8) (bytes_of "abcde")
                          (bytes_of "ABCDEFGH") (zeros 5)).
  - rewrite PTRDIFF_MAX_eq. lia.
  - lia.
  - reflexivity.
  - reflexivity.
  - reflexivity.
  - reflexivity.
Defined.

(** * Further properties of the interface *)

(** ** Lists read and written round the end of a block *)

Section RingLists.

Context {A : Type}.
Implicit Types l bs : list A.

Local Abbreviation rot p l := (skipn p l ++ firstn p l).

Lemma firstn_add_skipn l (p n : nat) :
  firstn (p + n) l = firstn p l ++ firstn n (skipn p l).
Proof.
  revert l. induction p as [| p IH]; intros l; [reflexivity |].
  destruct l as [| x l]; simpl.
  - now rewrite firstn_nil.
  - now rewrite IH.
Qed.

Lemma skipn_prefix l (q p : nat) :
  (q <= p)%nat -> skipn q l = skipn q (firstn p l) ++ skipn p l.
Proof.
  intros H. rewrite <- (firstn_skipn p l) at 1.
  rewrite skipn_app, length_firstn.
  destruct (Nat.le_gt_cases p (length l)) as [Hp | Hp].
  - rewrite Nat.min_l by lia.
    replace (q - p)%nat with 0%nat by lia. reflexivity.
  - rewrite (skipn_all2 l (n := p)) by lia.
    rewrite skipn_nil. reflexivity.
Qed.

Lemma rot_add_lt l (p n : nat) :
  (p + n <= length l)%nat ->
  rot (p + n) l = skipn n (rot p l) ++ firstn n (rot p l).
Proof.
  intros H.
  rewrite skipn_app, firstn_app, length_skipn.
  replace (n - (length l - p))%nat with 0%nat by lia. simpl.
  rewrite app_nil_r, skipn_skipn, <- app_assoc, <- firstn_add_skipn.
  now rewrite (Nat.add_comm n p).
Qed.

Lemma rot_add_ge l (p n q : nat) :
  (p <= length l)%nat -> (n <= length l)%nat -> (q + length l = p + n)%nat ->
  rot q l = skipn n (rot p l) ++ firstn n (rot p l).
Proof.
  intros Hp Hn Hq.
  rewrite skipn_app, firstn_app, length_skipn.
  replace (n - (length l - p))%nat with q by lia.
  rewrite (skipn_all2 (skipn p l)) by (rewrite length_skipn; lia).
  rewrite (firstn_all2 (skipn p l)) by (rewrite length_skipn; lia).
  simpl. rewrite firstn_firstn, Nat.min_l by lia.
  rewrite app_assoc, <- skipn_prefix by lia. reflexivity.
Qed.

Lemma ring_take_run l (p n s : nat) :
  (n <= s)%nat -> (p + n <= length l)%nat ->
  firstn n (firstn s (rot p l)) = firstn n (skipn p l).
Proof.
  intros Hs Hn. rewrite firstn_firstn, Nat.min_l by lia.
  rewrite firstn_app, length_skipn.
  replace (n - (length l - p))%nat with 0%nat by lia.
  simpl. apply app_nil_r.
Qed.

Lemma ring_take_wrap l (p n s : nat) :
  (p <= length l)%nat -> (length l - p <= n)%nat -> (n <= s)%nat ->
  (s <= length l)%nat ->
  firstn n (firstn s (rot p l)) = skipn p l ++ firstn (n - (length l - p)) l.
Proof.
  intros Hp Hn Hs Hl. rewrite firstn_firstn, Nat.min_l by lia.
  rewrite firstn_app, length_skipn.
  rewrite (firstn_all2 (skipn p l)) by (rewrite length_skipn; lia).
  rewrite firstn_firstn, Nat.min_l by lia. reflexivity.
Qed.

Lemma ring_drop l (p n s q : nat) :
  (p < length l)%nat -> (n <= s)%nat -> (s <= length l)%nat ->
  (q = p + n \/ q + length l = p + n)%nat -> (q < length l)%nat ->
  firstn (s - n) (rot q l) = skipn n (firstn s (rot p l)).
Proof.
  intros Hp Hn Hs Hq Hql.
  assert (E : rot q l = skipn n (rot p l) ++ firstn n (rot p l)).
  { destruct Hq as [-> | Hq]; [apply rot_add_lt | apply rot_add_ge]; lia. }
  rewrite E, skipn_firstn_comm, firstn_app.
  rewrite length_skipn, length_app, length_skipn, length_firstn.
  replace (s - n - (length l - p + Nat.min p (length l) - n))%nat with 0%nat by lia.
  simpl. apply app_nil_r.
Qed.

Lemma ring_append_run l (p s : nat) bs :
  (p + s + length bs <= length l)%nat ->
  firstn (s + length bs)
         (rot p (firstn (p + s) l ++ bs ++ skipn (p + s + length bs) l))
  = firstn s (rot p l) ++ bs.
Proof.
  intros H.
  assert (E1 : firstn s (rot p l) = skipn p (firstn (p + s) l)).
  { rewrite firstn_app, length_skipn.
    replace (s - (length l - p))%nat with 0%nat by lia.
    simpl. rewrite app_nil_r, skipn_firstn_comm. f_equal. lia. }
  rewrite E1.
  rewrite skipn_app, length_firstn, Nat.min_l by lia.
  replace (p - (p + s))%nat with 0%nat by lia. simpl.
  rewrite <- !app_assoc, app_assoc.
  rewrite firstn_app.
  rewrite firstn_all2
    by (rewrite length_app, length_skipn, length_firstn; lia).
  rewrite length_app, length_skipn, length_firstn.
  replace (s + length bs - (Nat.min (p + s) (length l) - p + length bs))%nat
    with 0%nat by lia.
  simpl. now rewrite app_nil_r.
Qed.

Lemma ring_append_wrap l (p s t : nat) bs :
  (p <= length l)%nat -> (t + length l = p + s)%nat ->
  (s + length bs <= length l)%nat ->
  firstn (s + length bs)
         (rot p (firstn t l ++ bs ++ skipn (t + length bs) l))
  = firstn s (rot p l) ++ bs.
Proof.
  intros Hp Ht Hs.
  set (n := length bs) in *.
  assert (E1 : firstn s (rot p l) = skipn p l ++ firstn t l).
  { rewrite firstn_app, length_skipn.
    rewrite (firstn_all2 (skipn p l)) by (rewrite length_skipn; lia).
    rewrite firstn_firstn. f_equal. f_equal. lia. }
  assert (E2 : skipn p (firstn t l ++ bs ++ skipn (t + n) l) = skipn p l).
  { rewrite app_assoc, skipn_app.
    rewrite skipn_all2 by (rewrite length_app, length_firstn; fold n; lia).
    rewrite length_app, length_firstn. fold n.
    rewrite Nat.min_l by lia. simpl.
    rewrite skipn_skipn. f_equal. lia. }
  assert (E3 : firstn (t + n) (firstn p (firstn t l ++ bs ++ skipn (t + n) l))
               = firstn t l ++ bs).
  { rewrite firstn_firstn, Nat.min_l by lia.
    rewrite app_assoc, firstn_app.
    rewrite firstn_all2 by (rewrite length_app, length_firstn; fold n; lia).
    rewrite length_app, length_firstn. fold n.
    replace (t + n - (Nat.min t (length l) + n))%nat with 0%nat by lia.
    simpl. apply app_nil_r. }
  rewrite E1, E2, firstn_app, length_skipn.
  rewrite (firstn_all2 (skipn p l)) by (rewrite length_skipn; lia).
  replace (s + n - (length l - p))%nat with (t + n)%nat by lia.
  rewrite E3. now rewrite app_assoc.
Qed.

End RingLists.

(** ** The helpers on buffers that satisfy the invariants *)

Lemma tailpos_cases (b : sgs_buffer) :
  wf b ->
  exists t, tailpos b = Done t /\
    ((position b + size b < capacity b /\ t = position b + size b) \/
     (capacity b <= position b + size b /\
      t = position b + size b - capacity b)).
Proof.
  intros [[Hc Hb Hp Hs] Hsz]. rewrite PTRDIFF_MAX_eq in Hc.
  rewrite tailpos_ok by lia.
  rewrite to_size_t_small by (rewrite SIZE_MOD_eq; lia).
  eexists. split; [reflexivity |].
  destruct (Z.lt_ge_cases (position b + size b) (capacity b)) as [H | H].
  - left. split; [assumption |]. apply Z.mod_small. lia.
  - right. split; [assumption |]. symmetry.
    apply Z.mod_unique with (q := 1); lia.
Qed.

Lemma contents_blen (b : sgs_buffer) : wf b -> blen (contents b) = size b.
Proof.
  intros [[Hc Hb Hp Hs] Hsz]. unfold contents, blen in *.
  rewrite length_firstn, length_app, length_skipn, length_firstn. lia.
Qed.

(** X1: on a buffer that satisfies the invariants and is not full,
    [readable_len] is the smaller of [size] and the distance from the
    head to the end of the block, and [writable_len] the smaller of the
    remaining capacity and the distance from the tail to the end of the
    block. On a full buffer they return [capacity] and [capacity -
    position]: the stored size, whatever the head, and a run that is not
    free. *)
Theorem run_lengths (b : sgs_buffer) :
  wf b ->
  (size b < capacity b ->
     readable_len b = Done (Z.min (size b) (capacity b - position b)) /\
     writable_len b =
       Done (Z.min (sgs_buffer_remaining_capacity b)
                   (capacity b - (position b + size b) mod capacity b))) /\
  (size b = capacity b ->
     readable_len b = Done (capacity b) /\
     writable_len b = Done (capacity b - position b)).
Proof.
  intros Hwf. destruct (tailpos_cases b Hwf) as (t & Et & Ht).
  destruct Hwf as [[Hc Hb Hp Hs] Hsz]. rewrite PTRDIFF_MAX_eq in Hc.
  assert (Hrem : sgs_buffer_remaining_capacity b = capacity b - size b).
  { apply to_size_t_small. rewrite SIZE_MOD_eq. lia. }
  assert (Hm : (position b + size b) mod capacity b = t).
  { pose proof Et as Et'. rewrite tailpos_ok in Et' by lia.
    rewrite to_size_t_small in Et' by (rewrite SIZE_MOD_eq; lia).
    congruence. }
  unfold readable_len, writable_len. rewrite Et, Hrem, Hm. cbn [bind].
  split; intros Hfull.
  - destruct (position b <=? t) eqn:E.
    + destruct Ht as [[H1 H2] | [H1 H2]]; [| lia].
      rewrite to_size_t_small by (rewrite SIZE_MOD_eq; lia).
      split; f_equal; lia.
    + destruct Ht as [[H1 H2] | [H1 H2]]; [lia |].
      rewrite !to_size_t_small by (rewrite SIZE_MOD_eq; lia).
      split; f_equal; lia.
  - destruct Ht as [[H1 H2] | [H1 H2]]; [lia |].
    destruct (position b <=? t) eqn:E; [| lia].
    rewrite to_size_t_small by (rewrite SIZE_MOD_eq; lia).
    split; f_equal; lia.
Qed.

Lemma run_lengths_witness :
  (2 < 8 ->
     readable_len (mkBuffer 8 7 2 (zeros 8)) = Done (Z.min 2 (8 - 7)) /\
     writable_len (mkBuffer 8 7 2 (zeros 8)) =
       Done (Z.min (sgs_buffer_remaining_capacity (mkBuffer 8 7 2 (zeros 8)))
                   (8 - (7 + 2) mod 8))) /\
  (2 = 8 ->
     readable_len (mkBuffer 8 7 2 (zeros 8)) = Done 8 /\
     writable_len (mkBuffer 8 7 2 (zeros 8)) = Done (8 - 7)).
Proof.
  apply (run_lengths (mkBuffer 8 7 2 (zeros 8))).
  split; [apply allocatedb_sound; reflexivity | simpl; lia].
Defined.

(** ** What peek, read and write do to the stored bytes *)

(** The contiguous run from the head is a prefix of the stored bytes. *)
Lemma contents_run (b : sgs_buffer) (n : Z) :
  wf b -> 0 <= n <= size b -> position b + n <= capacity b ->
  firstn (Z.to_nat n) (skipn (Z.to_nat (position b)) (buf b))
  = firstn (Z.to_nat n) (contents b).
Proof.
  intros [[Hc Hb Hp Hs] Hsz] Hn Hpn. unfold contents, blen in *.
  symmetry. apply ring_take_run; lia.
Qed.

(** When the buffer satisfies the invariants and [len <= size], and
    the buffer is not a full one with its head off offset 0 asked for
    more than reaches the end of the block, [sgs_buffer_peek] returns 0
    and puts the first [len] stored bytes, oldest first, at the start of
    the caller's block, whose other bytes stay. *)
Lemma peek_contents_core (b : sgs_buffer) (data : list byte) (len : Z) :
  wf b -> peekable b len -> 0 <= len <= size b -> len <= blen data ->
  sgs_buffer_peek b data len
  = Done (0, firstn (Z.to_nat len) (contents b) ++ skipn (Z.to_nat len) data).
Proof.
  intros Hwf Hpk Hlen Hd.
  destruct (tailpos_cases b Hwf) as (t & Et & Ht).
  pose proof Hwf as [[Hc Hb Hp Hs] Hsz]. rewrite PTRDIFF_MAX_eq in Hc.
  unfold sgs_buffer_peek, readable_len. rewrite Et. cbn [bind].
  assert (Hone : position b + len <= capacity b ->
                 memcpy data 0 (buf b) (position b) len
                 = Done (firstn (Z.to_nat len) (contents b)
                         ++ skipn (Z.to_nat len) data)).
  { intros Hfit. rewrite memcpy_ok by lia.
    rewrite contents_run by (assumption || lia).
    rewrite Z.add_0_l. reflexivity. }
  destruct (position b <=? t) eqn:E; cbn [bind].
  - destruct (size b <? len) eqn:E1; [lia |].
    destruct (len <=? size b) eqn:E2; [| lia].
    rewrite Hone; [reflexivity |].
    destruct Ht as [[H1 H2] | [H1 H2]]; [lia |].
    destruct Hpk as [Hpk | [Hpk | Hpk]]; lia.
  - destruct Ht as [[H1 H2] | [H1 H2]]; [lia |].
    rewrite to_size_t_small by (rewrite SIZE_MOD_eq; lia).
    destruct (size b <? len) eqn:E1; [lia |].
    destruct (len <=? capacity b - position b) eqn:E2.
    + rewrite Hone by lia. reflexivity.
    + set (r := capacity b - position b) in *.
      rewrite memcpy_ok by lia. cbn [bind].
      rewrite (to_size_t_small (len - r)) by (rewrite SIZE_MOD_eq; lia).
      change (Z.to_nat 0) with 0%nat. cbn [firstn skipn app].
      rewrite Z.add_0_l.
      rewrite (firstn_blen_all r (skipn (Z.to_nat (position b)) (buf b)))
        by (rewrite blen_skipn; lia).
      assert (Hx : blen (skipn (Z.to_nat (position b)) (buf b)) = r)
        by (rewrite blen_skipn; lia).
      rewrite memcpy_ok
        by (rewrite ?blen_app, ?blen_skipn; lia).
      cbn [bind]. change (Z.to_nat 0) with 0%nat. cbn [skipn].
      rewrite firstn_blen_app by assumption.
      replace (Z.to_nat (r + (len - r))) with (Z.to_nat (len - r) + Z.to_nat r)%nat
        by lia.
      rewrite <- skipn_skipn.
      rewrite skipn_blen_app by assumption.
      rewrite skipn_skipn.
      replace (Z.to_nat (len - r) + Z.to_nat r)%nat with (Z.to_nat len) by lia.
      rewrite app_assoc. f_equal. f_equal.
      unfold contents, blen in *.
      rewrite ring_take_wrap by lia.
      do 3 f_equal. subst r. lia.
Qed.


(** Storing a chunk at the tail, inside the block and inside the free
    space, appends it to the stored bytes. *)
Lemma contents_store (c p s t : Z) (m bs m1 : list byte) :
  blen m = c -> 0 <= p < c -> 0 <= s -> s + blen bs <= c ->
  t = (p + s) mod c ->
  store m t bs = Done m1 ->
  blen m1 = c /\
  contents (mkBuffer c p (s + blen bs) m1) = contents (mkBuffer c p s m) ++ bs.
Proof.
  intros Hm Hp Hs Hfit Ht Hst.
  pose proof (store_blen _ _ _ _ Hst) as Hm1.
  split; [lia |].
  unfold store in Hst.
  destruct (0 <=? t) eqn:E1; simpl in Hst; [| discriminate].
  destruct (t + blen bs <=? blen m) eqn:E2; [| discriminate].
  injection Hst as <-.
  unfold contents. cbn [size position buf]. unfold blen in *.
  replace (Z.to_nat (s + Z.of_nat (length bs)))
    with (Z.to_nat s + length bs)%nat by lia.
  replace (Z.to_nat (t + Z.of_nat (length bs)))
    with (Z.to_nat t + length bs)%nat by lia.
  destruct (Z.lt_ge_cases (p + s) c) as [H | H].
  - rewrite Z.mod_small in Ht by lia. subst t.
    replace (Z.to_nat (p + s)) with (Z.to_nat p + Z.to_nat s)%nat by lia.
    apply ring_append_run. lia.
  - assert (t = p + s - c).
    { subst t. symmetry. apply Z.mod_unique with (q := 1); lia. }
    apply ring_append_wrap; lia.
Qed.

(** Advancing the head by [n] stored bytes drops them from the stored
    bytes. *)
Lemma contents_advance (c p s n : Z) (m : list byte) :
  blen m = c -> 0 <= p < c -> 0 <= n <= s -> s <= c ->
  contents (mkBuffer c ((p + n) mod c) (s - n) m)
  = skipn (Z.to_nat n) (contents (mkBuffer c p s m)).
Proof.
  intros Hm Hp Hn Hs. unfold contents. cbn [size position buf].
  unfold blen in *.
  replace (Z.to_nat (s - n)) with (Z.to_nat s - Z.to_nat n)%nat by lia.
  assert (Hq : 0 <= (p + n) mod c < c) by (apply Z.mod_pos_bound; lia).
  apply ring_drop; try lia.
  destruct (Z.lt_ge_cases (p + n) c) as [H | H].
  - left. rewrite Z.mod_small by lia. lia.
  - right.
    assert ((p + n) mod c = p + n - c)
      by (symmetry; apply Z.mod_unique with (q := 1); lia).
    lia.
Qed.

(** Under the same conditions, [sgs_buffer_read] returns 0 with the
    same bytes in the caller's block, and leaves a buffer that satisfies
    the invariants: the block and the capacity stay, the size shrinks by
    [len], the head advances by [len] modulo the capacity, and the stored
    bytes are the old ones without the first [len]. *)
Lemma read_consumes_core (b : sgs_buffer) (data : list byte) (len : Z) :
  wf b -> peekable b len -> 0 <= len <= size b -> len <= blen data ->
  exists b',
    sgs_buffer_read b data len
    = Done (0, firstn (Z.to_nat len) (contents b) ++ skipn (Z.to_nat len) data,
            b') /\
    wf b' /\ capacity b' = capacity b /\ buf b' = buf b /\
    size b' = size b - len /\
    position b' = (position b + len) mod capacity b /\
    contents b' = skipn (Z.to_nat len) (contents b).
Proof.
  intros Hwf Hpk Hlen Hd.
  pose proof Hwf as [[Hc Hb Hp Hs] Hsz]. rewrite PTRDIFF_MAX_eq in Hc.
  unfold sgs_buffer_read.
  rewrite peek_contents_core by assumption. cbn [bind].
  change (0 =? -1) with false. cbn iota.
  rewrite size_rem_ok by lia. cbn [bind].
  rewrite (to_size_t_small (position b + len)) by (rewrite SIZE_MOD_eq; lia).
  unfold set_size, set_position. cbn [capacity position size buf].
  rewrite (to_size_t_small (size b - len)) by (rewrite SIZE_MOD_eq; lia).
  assert (Hq : 0 <= (position b + len) mod capacity b < capacity b)
    by (apply Z.mod_pos_bound; lia).
  eexists. split; [reflexivity |].
  split.
  { split; [constructor |]; cbn [capacity position size buf];
      rewrite ?PTRDIFF_MAX_eq, ?SIZE_MOD_eq; lia. }
  repeat (split; [reflexivity |]).
  clear Hwf Hpk. destruct b as [c p s m].
  cbn [capacity position size buf] in *.
  apply contents_advance; lia.
Qed.


Lemma tailpos_wf (b : sgs_buffer) :
  wf b -> tailpos b = Done ((position b + size b) mod capacity b).
Proof.
  intros [[Hc Hb Hp Hs] Hsz]. rewrite PTRDIFF_MAX_eq in Hc.
  rewrite tailpos_ok by lia.
  now rewrite to_size_t_small by (rewrite SIZE_MOD_eq; lia).
Qed.

Lemma memcpy_from_start (dst : list byte) (doff : Z) (src : list byte) (n : Z) :
  0 <= n <= blen src ->
  memcpy dst doff src 0 n = store dst doff (firstn (Z.to_nat n) src).
Proof.
  intros H. unfold memcpy. rewrite load_ok by lia. reflexivity.
Qed.

(** On a buffer that satisfies the invariants, [sgs_buffer_write] of
    [len] bytes that fit the remaining capacity returns 0 and leaves a
    buffer that satisfies the invariants, with the same capacity and
    head, [len] more bytes, and stored bytes that are the old ones
    followed by the [len] bytes written: also when the copy is split at
    the end of the block. *)
Lemma write_appends_core (b : sgs_buffer) (data : list byte) (len : Z) :
  wf b -> 0 <= len <= sgs_buffer_remaining_capacity b -> len <= blen data ->
  exists b',
    sgs_buffer_write b data len = Done (0, b', None) /\
    wf b' /\ capacity b' = capacity b /\ position b' = position b /\
    size b' = size b + len /\
    contents b' = contents b ++ firstn (Z.to_nat len) data.
Proof.
  intros Hwf Hlen Hd.
  pose proof (tailpos_wf b Hwf) as Et.
  pose proof Hwf as [[Hc Hb Hp Hs] Hsz]. rewrite PTRDIFF_MAX_eq in Hc.
  assert (Hrem : sgs_buffer_remaining_capacity b = capacity b - size b).
  { apply to_size_t_small. rewrite SIZE_MOD_eq. lia. }
  rewrite Hrem in Hlen.
  assert (Hwf' : forall m1, blen m1 = capacity b ->
            wf (set_size (set_buf b m1) (size b + len))).
  { intros m1 Hm1. split; [constructor |]; cbn [set_size set_buf capacity position size buf];
      rewrite ?PTRDIFF_MAX_eq, ?SIZE_MOD_eq; lia. }
  unfold sgs_buffer_write, writable_len. rewrite Et, Hrem. cbn [bind].
  set (t := (position b + size b) mod capacity b) in *.
  assert (Ht : (position b + size b < capacity b /\ t = position b + size b) \/
               (capacity b <= position b + size b /\
                t = position b + size b - capacity b)).
  { destruct (Z.lt_ge_cases (position b + size b) (capacity b)) as [H | H].
    - left. split; [assumption |]. apply Z.mod_small. lia.
    - right. split; [assumption |]. symmetry.
      apply Z.mod_unique with (q := 1); lia. }
  assert (Hfin : forall m,
            set_size (set_buf b m) (to_size_t (size (set_buf b m) + len))
            = set_size (set_buf b m) (size b + len)).
  { intros m. cbn [set_buf size].
    now rewrite to_size_t_small by (rewrite SIZE_MOD_eq; lia). }
  assert (Hone : forall w, 0 < w -> t + w <= capacity b -> len <= w ->
            exists b',
              (m <- memcpy (buf b) t data 0 len;;
               Done (0, set_size (set_buf b m)
                                 (to_size_t (size (set_buf b m) + len)),
                     @None errno_code))
              = Done (0, b', None) /\
              wf b' /\ capacity b' = capacity b /\ position b' = position b /\
              size b' = size b + len /\
              contents b' = contents b ++ firstn (Z.to_nat len) data).
  { intros w Hw Htw Hlw. rewrite memcpy_from_start by lia.
    set (bs := firstn (Z.to_nat len) data).
    assert (Hbs : blen bs = len) by (apply blen_firstn; lia).
    destruct (store (buf b) t bs) as [m1 | |] eqn:Es;
      try (rewrite store_ok in Es by lia; discriminate).
    destruct (contents_store (capacity b) (position b) (size b) t (buf b) bs m1)
      as [Hm1 Hcont]; try (assumption || reflexivity || lia).
    cbn [bind]. rewrite Hfin. eexists. split; [reflexivity |].
    split; [now apply Hwf' |].
    repeat (split; [reflexivity |]).
    rewrite Hbs in Hcont.
    unfold set_size, set_buf. cbn [capacity position size buf].
    rewrite Hcont. clear. now destruct b. }
  destruct (capacity b - size b <? len) eqn:E0; [lia |].
  destruct (position b <=? t) eqn:E; cbn [bind].
  - rewrite to_size_t_small by (rewrite SIZE_MOD_eq; lia).
    destruct (len <=? capacity b - t) eqn:E1.
    + apply (Hone (capacity b - t)); lia.
    + (* two copies: the stored bytes do not reach the end of the block *)
      destruct Ht as [[H1 H2] | [H1 H2]]; [| lia].
      set (w := capacity b - t) in *.
      rewrite memcpy_from_start by lia.
      set (bs1 := firstn (Z.to_nat w) data).
      assert (Hbs1 : blen bs1 = w) by (apply blen_firstn; lia).
      destruct (store (buf b) t bs1) as [m1 | |] eqn:Es1;
        try (rewrite store_ok in Es1 by lia; discriminate).
      destruct (contents_store (capacity b) (position b) (size b) t (buf b) bs1 m1)
        as [Hm1 Hcont1]; try (assumption || reflexivity || lia).
      cbn [bind].
      rewrite (to_size_t_small (len - w)) by (rewrite SIZE_MOD_eq; lia).
      unfold memcpy. rewrite load_ok by lia. cbn [bind].
      set (bs2 := firstn (Z.to_nat (len - w)) (skipn (Z.to_nat w) data)).
      assert (Hbs2 : blen bs2 = len - w).
      { apply blen_firstn. rewrite blen_skipn; lia. }
      destruct (store m1 0 bs2) as [m2 | |] eqn:Es2;
        try (rewrite store_ok in Es2 by lia; discriminate).
      destruct (contents_store (capacity b) (position b) (size b + blen bs1) 0
                               m1 bs2 m2)
        as [Hm2 Hcont2]; try (assumption || lia).
      { rewrite Hbs1. subst w. rewrite H2.
        replace (position b + (size b + (capacity b - (position b + size b))))
          with (capacity b) by lia.
        symmetry. apply Z.mod_same. lia. }
      cbn [bind]. rewrite Hfin. eexists. split; [reflexivity |].
      split; [now apply Hwf' |].
      repeat (split; [reflexivity |]).
      rewrite Hcont1, Hbs1, Hbs2 in Hcont2.
      replace (size b + w + (len - w)) with (size b + len) in Hcont2 by lia.
      unfold set_size, set_buf. cbn [capacity position size buf].
      rewrite Hcont2, <- app_assoc.
      change (contents (mkBuffer (capacity b) (position b) (size b) (buf b)))
        with (contents b).
      f_equal.
      unfold bs1, bs2. rewrite <- firstn_add_skipn. f_equal. lia.
  - destruct Ht as [[H1 H2] | [H1 H2]]; [lia |].
    rewrite to_size_t_small by (rewrite SIZE_MOD_eq; lia).
    destruct (len <=? position b - t) eqn:E1; [| lia].
    apply (Hone (position b - t)); lia.
Qed.


(** X5: first in, first out. After a write that leaves the buffer not
    full, or with its head at offset 0, reading all the stored bytes
    returns the bytes stored before the write followed by the bytes
    written, and leaves the buffer empty. *)
Theorem write_then_read_all (b : sgs_buffer) (data out : list byte) (len : Z) :
  wf b -> 0 <= len <= sgs_buffer_remaining_capacity b -> len <= blen data ->
  size b + len < capacity b \/ position b = 0 ->
  blen out = size b + len ->
  exists b1 b2,
    sgs_buffer_write b data len = Done (0, b1, None) /\
    sgs_buffer_read b1 out (size b + len)
    = Done (0, contents b ++ firstn (Z.to_nat len) data, b2) /\
    wf b2 /\ size b2 = 0 /\ contents b2 = [].
Proof.
  intros Hwf Hlen Hd Hpk Hout.
  destruct (write_appends_core b data len Hwf Hlen Hd)
    as (b1 & Hw & Hwf1 & Hc1 & Hp1 & Hs1 & Hcont1).
  pose proof (contents_blen b1 Hwf1) as Hbl.
  destruct (read_consumes_core b1 out (size b + len) Hwf1)
    as (b2 & Hr & Hwf2 & Hc2 & Hb2 & Hs2 & Hp2 & Hcont2).
  - unfold peekable. rewrite Hs1, Hc1, Hp1. destruct Hpk; [left | right; left]; lia.
  - destruct Hwf as [[_ _ _ Hs] _]. lia.
  - lia.
  - exists b1, b2. split; [exact Hw |].
    split.
    + rewrite Hr.
      rewrite <- Hs1, <- Hbl.
      rewrite firstn_all2 by (unfold blen; lia).
      rewrite skipn_all2 by (unfold blen in *; lia).
      rewrite app_nil_r, Hcont1. reflexivity.
    + split; [exact Hwf2 |]. split; [lia |].
      apply blen_nil_inv. rewrite (contents_blen b2 Hwf2). lia.
Qed.

Lemma write_then_read_all_witness :
  exists b1 b2,
    sgs_buffer_write (mkBuffer 8 3 2 (bytes_of "ABCDEFGH")) (bytes_of "FGHIJ") 5
    = Done (0, b1, None) /\
    sgs_buffer_read b1 (zeros 7) (2 + 5)
    = Done (0, contents (mkBuffer 8 3 2 (bytes_of "ABCDEFGH"))
               ++ firstn (Z.to_nat 5) (bytes_of "FGHIJ"), b2) /\
    wf b2 /\ size b2 = 0 /\ contents b2 = [].
Proof.
  apply (write_then_read_all (mkBuffer 8 3 2 (bytes_of "ABCDEFGH"))
                             (bytes_of "FGHIJ") (zeros 7) 5).
  - split; [apply allocatedb_sound; reflexivity | simpl; lia].
  - vm_compute. split; discriminate.
  - vm_compute. discriminate.
  - left. simpl. lia.
  - reflexivity.
Defined.

(** ** More on reading from a descriptor *)

Lemma delivered_app (l1 l2 : read_log) :
  delivered (l1 ++ l2) = delivered l1 ++ delivered l2.
Proof.
  induction l1 as [| [n [| bs]] l1 IH]; simpl; [reflexivity | exact IH |].
  now rewrite IH, app_assoc.
Qed.

Lemma delivered_blen (l : read_log) : blen (delivered l) = transferred l.
Proof.
  induction l as [| [n [| bs]] l IH]; simpl; [reflexivity | exact IH |].
  rewrite blen_app, IH. reflexivity.
Qed.

Lemma allocated_wf_tailpos (b : sgs_buffer) (t : Z) :
  allocated b -> size b <= capacity b -> tailpos b = Done t ->
  t = (position b + size b) mod capacity b.
Proof.
  intros Ha Hsz Et. rewrite tailpos_wf in Et by (split; assumption).
  congruence.
Qed.

Section ReadInvariant.

Variable fd : reader.
Hypothesis Hresp : respects_requests fd.

(** What every returning run of the loop keeps, and that no run leaves
    the block. *)
Lemma read_from_fd_loop_inv (fuel : nat) :
  forall h b total w,
    allocated b -> writable_len b = Done w ->
    match read_from_fd_loop fuel fd h b total w with
    | Undef _ => False
    | OutOfFuel => True
    | Done (r, b', h') =>
        allocated b' /\ capacity b' = capacity b /\
        position b' = position b /\
        exists log,
          h' = h ++ log /\ log <> [] /\
          size b' = to_size_t (size b + transferred log) /\
          (size b <= capacity b ->
           size b + transferred log <= capacity b ->
           contents b' = contents b ++ delivered log)
    end.
Proof.
  induction fuel as [| fuel IH]; intros h b total w Ha Ew;
    destruct (writable_len_range b Ha) as (t & w' & Et & Ew' & Ht0 & Hw & Htw);
    rewrite Ew in Ew'; injection Ew' as <-;
    simpl; destruct (0 <? w) eqn:E0; try lia.
  pose proof Ha as [Hc Hb Hp Hs]. rewrite PTRDIFF_MAX_eq in Hc.
  rewrite Et. simpl. unfold sys_read.
  pose proof (Hresp h w ltac:(lia)) as Hr.
  destruct (fd h w) as [| bs] eqn:Efd.
  - (* error *)
    simpl. rewrite set_buf_same.
    repeat (split; [assumption || reflexivity |]).
    exists [(w, ReadError)]. simpl.
    rewrite Z.add_0_r, to_size_t_small, app_nil_r by lia.
    repeat split; auto. discriminate.
  - pose proof (blen_nonneg bs) as Hbs.
    destruct (store (buf b) t bs) as [m | |] eqn:Es;
      try (rewrite store_ok in Es by lia; discriminate).
    pose proof (store_blen _ _ _ _ Es) as Hm.
    simpl.
    rewrite (to_size_t_small (blen bs)) by (rewrite SIZE_MOD_eq; lia).
    rewrite to_size_t_minus_one, SIZE_MOD_eq.
    destruct (blen bs =? 18446744073709551616 - 1) eqn:E1; [lia |].
    assert (Hcont : size b <= capacity b -> size b + blen bs <= capacity b ->
              contents (set_size (set_buf b m) (size b + blen bs))
              = contents b ++ bs).
    { intros H1 H2.
      destruct (contents_store (capacity b) (position b) (size b) t (buf b) bs m)
        as [_ Hcs]; try (exact Hcs || assumption || lia).
      now apply allocated_wf_tailpos. }
    destruct (blen bs =? 0) eqn:E2.
    + (* end of stream *)
      assert (bs = []) by (apply blen_nil_inv; lia). subst bs.
      rewrite store_nil in Es by lia. injection Es as <-.
      rewrite set_buf_same.
      repeat (split; [assumption || reflexivity |]).
      exists [(w, ReadBytes [])]. simpl.
      replace (blen (@nil byte)) with 0 by reflexivity.
      rewrite !Z.add_0_r, to_size_t_small, app_nil_r by lia.
      repeat split; auto. discriminate.
    + set (b1 := set_size (set_buf b m) (to_size_t (size b + blen bs))).
      assert (Ha1 : allocated b1) by (apply allocated_commit; assumption).
      assert (Hcont1 : size b <= capacity b -> size b + blen bs <= capacity b ->
                contents b1 = contents b ++ bs).
      { intros H1 H2. unfold b1.
        rewrite to_size_t_small by (rewrite SIZE_MOD_eq; lia). now apply Hcont. }
      destruct (blen bs =? w) eqn:E3; simpl.
      * (* the whole request: next iteration *)
        destruct (writable_len_range _ Ha1) as (t1 & w1 & _ & Ew1 & _).
        fold b1. rewrite Ew1. simpl.
        specialize (IH (h ++ [(w, ReadBytes bs)]) b1
                       (to_size_t (total + blen bs)) w1 Ha1 Ew1).
        destruct (read_from_fd_loop fuel fd (h ++ [(w, ReadBytes bs)]) b1
                                   (to_size_t (total + blen bs)) w1)
          as [[[r b'] h'] | u |]; [| exact IH | exact I].
        destruct IH as (Ha' & Hcap & Hpos & log & Hh & Hne & Hsize & Hc').
        split; [exact Ha' |]. split; [exact Hcap |]. split; [exact Hpos |].
        exists ((w, ReadBytes bs) :: log).
        split; [rewrite Hh, <- app_assoc; reflexivity |].
        split; [discriminate |].
        pose proof (transferred_nonneg log) as Hlog.
        split.
        -- rewrite Hsize. unfold b1. simpl.
           rewrite to_size_t_add_l. f_equal. lia.
        -- simpl. intros H1 H2.
           assert (Hs1 : size b1 = size b + blen bs).
           { unfold b1. simpl. apply to_size_t_small. rewrite SIZE_MOD_eq. lia. }
           rewrite Hc' by (cbn [b1 capacity set_size set_buf] in *;
                           rewrite ?Hs1; simpl; lia).
           rewrite Hcont1 by lia. now rewrite <- app_assoc.
      * (* a partial transfer *)
        fold b1.
        split; [exact Ha1 |]. split; [reflexivity |]. split; [reflexivity |].
        exists [(w, ReadBytes bs)]. simpl.
        rewrite !Z.add_0_r, app_nil_r.
        repeat split; auto. discriminate.
Qed.

End ReadInvariant.

(** X6: against a descriptor that delivers at most what is requested,
    [sgs_buffer_read_from_fd] never stores outside the block, from any
    allocated buffer, full ones included. When it returns it has called
    [read] at least once, the capacity and the head are as before, the
    block has its length, and [size] has grown, modulo 2^64, by the bytes
    delivered. *)
Theorem read_from_fd_stays_in_block (fd : reader) (fuel : nat) (h : read_log)
        (b : sgs_buffer) :
  allocated b -> respects_requests fd ->
  (forall u, sgs_buffer_read_from_fd fuel fd h b <> Undef u) /\
  (forall r b' h',
      sgs_buffer_read_from_fd fuel fd h b = Done (r, b', h') ->
      allocated b' /\ capacity b' = capacity b /\ position b' = position b /\
      exists log,
        h' = h ++ log /\ log <> [] /\
        size b' = to_size_t (size b + transferred log)).
Proof.
  intros Ha Hresp. unfold sgs_buffer_read_from_fd.
  destruct (writable_len_range b Ha) as (t & w & _ & Ew & _).
  rewrite Ew. cbn [bind].
  pose proof (read_from_fd_loop_inv fd Hresp fuel h b 0 w Ha Ew) as Hinv.
  destruct (read_from_fd_loop fuel fd h b 0 w) as [[[r0 b0] h0] | u0 |].
  - split; [discriminate |].
    intros r b' h' H. injection H as <- <- <-.
    destruct Hinv as (Ha' & Hcap & Hpos & log & Hh & Hne & Hsize & _).
    repeat (split; [assumption |]).
    exists log. repeat split; assumption.
  - contradiction.
  - split; discriminate.
Qed.

Lemma read_from_fd_stays_in_block_witness :
  (forall u, sgs_buffer_read_from_fd 3 (scripted [ReadBytes (zeros 2)]) []
                                     full_wrapped <> Undef u) /\
  (forall r b' h',
      sgs_buffer_read_from_fd 3 (scripted [ReadBytes (zeros 2)]) [] full_wrapped
      = Done (r, b', h') ->
      allocated b' /\ capacity b' = 2 /\ position b' = 1 /\
      exists log,
        h' = [] ++ log /\ log <> [] /\
        size b' = to_size_t (2 + transferred log)).
Proof.
  apply (read_from_fd_stays_in_block (scripted [ReadBytes (zeros 2)]) 3 []
                                     full_wrapped).
  - apply allocatedb_sound. reflexivity.
  - apply scripted_respects_requests.
Defined.

(** Against a descriptor that delivers at most what is requested and
    at some call stops satisfying the requests in full, a call on a
    buffer that satisfies the invariants returns, and when the bytes
    delivered fit the remaining capacity, the buffer still satisfies the
    invariants and its stored bytes are the old ones followed by the
    bytes delivered, in order. *)
Lemma read_from_fd_appends_core (fd : reader) (N fuel : nat) (h : read_log)
        (b : sgs_buffer) :
  wf b -> respects_requests fd -> runs_dry fd N ->
  (N - length h < fuel)%nat ->
  exists r b' log,
    sgs_buffer_read_from_fd fuel fd h b = Done (r, b', h ++ log) /\
    capacity b' = capacity b /\ position b' = position b /\
    (size b + transferred log <= capacity b ->
     wf b' /\ size b' = size b + transferred log /\
     contents b' = contents b ++ delivered log).
Proof.
  intros [Ha Hsz] Hresp Hdry Hf. unfold sgs_buffer_read_from_fd.
  destruct (writable_len_range b Ha) as (t & w & _ & Ew & _).
  rewrite Ew. cbn [bind].
  destruct (read_from_fd_loop_returns fd N Hresp Hdry fuel h b 0 w Ha Ew)
    as (r & b' & pre & n & last & Hrun & _);
    [rewrite SIZE_MOD_eq; lia | exact Hf |].
  pose proof (read_from_fd_loop_inv fd Hresp fuel h b 0 w Ha Ew) as Hinv.
  rewrite Hrun in Hinv.
  destruct Hinv as (Ha' & Hcap & Hpos & log & Hh & Hne & Hsize & Hcont).
  apply app_inv_head in Hh. subst log.
  exists r, b', (pre ++ [(n, last)]).
  split; [exact Hrun |]. split; [exact Hcap |]. split; [exact Hpos |].
  intros Hfit.
  pose proof (transferred_nonneg (pre ++ [(n, last)])) as Hnn.
  pose proof Ha as [Hc Hb Hp Hs]. rewrite PTRDIFF_MAX_eq in Hc.
  rewrite to_size_t_small in Hsize by (rewrite SIZE_MOD_eq; lia).
  split; [split; [exact Ha' | lia] |].
  split; [exact Hsize |].
  now apply Hcont.
Qed.


(** ** Writing to a descriptor *)

Lemma readable_len_unwrapped (b : sgs_buffer) :
  wf b -> position b + size b <= capacity b ->
  readable_len b = Done (size b).
Proof.
  intros Hwf Hu. destruct (tailpos_cases b Hwf) as (t & Et & Ht).
  destruct Hwf as [[Hc Hb Hp Hs] Hsz]. rewrite PTRDIFF_MAX_eq in Hc.
  unfold readable_len. rewrite Et. cbn [bind].
  destruct (position b <=? t) eqn:E; [reflexivity |].
  rewrite to_size_t_small by (rewrite SIZE_MOD_eq; lia).
  f_equal. lia.
Qed.

Lemma readable_len_wrapped (b : sgs_buffer) :
  wf b -> capacity b < position b + size b -> size b < capacity b ->
  readable_len b = Done (capacity b - position b).
Proof.
  intros Hwf Hw Hnf. destruct (tailpos_cases b Hwf) as (t & Et & Ht).
  destruct Hwf as [[Hc Hb Hp Hs] Hsz]. rewrite PTRDIFF_MAX_eq in Hc.
  unfold readable_len. rewrite Et. cbn [bind].
  destruct (position b <=? t) eqn:E; [lia |].
  now rewrite to_size_t_small by (rewrite SIZE_MOD_eq; lia).
Qed.

Lemma write_to_fd_loop_zero (fuel : nat) (fd : writer) (h : write_log)
      (b : sgs_buffer) (total : Z) :
  write_to_fd_loop fuel fd h b total 0 = Done (to_int total, b, h).
Proof. destruct fuel; reflexivity. Qed.

Lemma wf_advance (b : sgs_buffer) (k : Z) :
  wf b -> 0 <= k <= size b ->
  wf (mkBuffer (capacity b) ((position b + k) mod capacity b) (size b - k)
               (buf b)).
Proof.
  intros [[Hc Hb Hp Hs] Hsz] Hk.
  assert (0 <= (position b + k) mod capacity b < capacity b)
    by (apply Z.mod_pos_bound; lia).
  split; [constructor |]; cbn [capacity position size buf]; lia.
Qed.

Lemma contents_advance_buffer (b : sgs_buffer) (k : Z) :
  wf b -> 0 <= k <= size b ->
  contents (mkBuffer (capacity b) ((position b + k) mod capacity b)
                     (size b - k) (buf b))
  = skipn (Z.to_nat k) (contents b).
Proof.
  intros [[Hc Hb Hp Hs] Hsz] Hk.
  destruct b as [c p s m]. cbn [capacity position size buf] in *.
  apply contents_advance; lia.
Qed.

Section WriteLoop.

Variable fd : writer.
Hypothesis Hresp : writer_respects fd.

(** One iteration that offers the run of [r0] bytes at the head. *)
Lemma write_to_fd_loop_step (fuel : nat) (h : write_log) (b : sgs_buffer)
      (total r0 : Z) :
  wf b -> 0 < r0 <= size b -> position b + r0 <= capacity b ->
  write_to_fd_loop (S fuel) fd h b total r0 =
    match fd h (firstn (Z.to_nat r0) (contents b)) with
    | WriteError =>
        Done (-1, b, h ++ [(firstn (Z.to_nat r0) (contents b), WriteError)])
    | WriteCount k =>
        let b2 := mkBuffer (capacity b) ((position b + k) mod capacity b)
                           (size b - k) (buf b) in
        let h1 := h ++ [(firstn (Z.to_nat r0) (contents b), WriteCount k)] in
        if k =? r0 then
          readable1 <- readable_len b2 ;;
          write_to_fd_loop fuel fd h1 b2 (to_size_t (total + k)) readable1
        else Done (to_int (to_size_t (total + k)), b2, h1)
    end.
Proof.
  intros Hwf Hr Hfit.
  pose proof Hwf as [[Hc Hb Hp Hs] Hsz]. rewrite PTRDIFF_MAX_eq in Hc.
  cbn [write_to_fd_loop]. destruct (0 <? r0) eqn:E0; [| lia].
  unfold sys_write. rewrite load_ok by lia. cbn [bind].
  rewrite contents_run by (assumption || lia).
  set (bs := firstn (Z.to_nat r0) (contents b)).
  assert (Hbs : blen bs = r0).
  { unfold bs. apply blen_firstn. rewrite contents_blen by assumption. lia. }
  pose proof (Hresp h bs) as Hk.
  destruct (fd h bs) as [| k]; cbn [bind].
  - reflexivity.
  - rewrite (to_size_t_small k) by (rewrite SIZE_MOD_eq; lia).
    rewrite to_size_t_minus_one, SIZE_MOD_eq.
    destruct (k =? 18446744073709551616 - 1) eqn:E1; [lia |].
    rewrite size_rem_ok by lia. cbn [bind].
    rewrite (to_size_t_small (position b + k)) by (rewrite SIZE_MOD_eq; lia).
    unfold set_size, set_position. cbn [capacity position size buf].
    rewrite (to_size_t_small (size b - k)) by (rewrite SIZE_MOD_eq; lia).
    destruct (k =? r0); reflexivity.
Qed.

End WriteLoop.

Lemma blen_firstn_le {A : Type} (k : Z) (l : list A) :
  0 <= k <= blen l -> blen (firstn (Z.to_nat k) l) = k.
Proof. apply blen_firstn. Qed.

Section WriteRuns.

Variable fd : writer.
Hypothesis Hresp : writer_respects fd.

(** The outcome of an iteration that ends the call: a failed [write], or
    fewer bytes accepted than offered. *)
Lemma write_outcome_error (b : sgs_buffer) (total : Z) (h : write_log)
      (bs : list byte) :
  wf b -> fd h bs = WriteError ->
  write_outcome fd b total (-1) b [(bs, WriteError)].
Proof.
  intros Hwf Efd. pose proof Hwf as [[Hc Hb Hp Hs] Hsz].
  unfold write_outcome. cbn [accepted write_failed].
  replace (blen (@nil byte)) with 0 by reflexivity.
  rewrite Z.add_0_r, Z.mod_small by lia.
  repeat (split; [assumption || reflexivity |]).
  split.
  - constructor; [| constructor]. exists h. simpl. now rewrite Efd.
  - right. exists [], bs, WriteError. split; [reflexivity | discriminate].
Qed.

Lemma write_outcome_partial (b : sgs_buffer) (total r0 k : Z) (h : write_log) :
  wf b -> 0 < r0 <= size b -> 0 <= k <= r0 -> k <> r0 ->
  fd h (firstn (Z.to_nat r0) (contents b)) = WriteCount k ->
  write_outcome fd b total (to_int (to_size_t (total + k)))
    (mkBuffer (capacity b) ((position b + k) mod capacity b) (size b - k)
              (buf b))
    [(firstn (Z.to_nat r0) (contents b), WriteCount k)].
Proof.
  intros Hwf Hr Hk Hne Efd.
  pose proof (contents_blen b Hwf) as Hbl.
  assert (Hacc : firstn (Z.to_nat k) (firstn (Z.to_nat r0) (contents b))
                 = firstn (Z.to_nat k) (contents b)).
  { rewrite firstn_firstn. f_equal. lia. }
  unfold write_outcome. cbn [accepted write_failed capacity position buf].
  rewrite app_nil_r, Hacc, blen_firstn by lia.
  split; [apply wf_advance; [assumption | lia] |].
  repeat (split; [reflexivity |]).
  split.
  { rewrite contents_advance_buffer by (assumption || lia).
    now rewrite firstn_skipn. }
  split; [reflexivity |].
  split.
  - constructor; [| constructor]. exists h. simpl. now rewrite Efd.
  - right. eexists [], _, _. split; [reflexivity |].
    rewrite blen_firstn by lia. intros H. injection H as H. lia.
Qed.

Lemma write_to_fd_loop_unwrapped (fuel : nat) (h : write_log) (b : sgs_buffer)
      (total : Z) :
  wf b -> position b + size b <= capacity b -> 0 <= total < SIZE_MOD ->
  exists r b' log,
    write_to_fd_loop (S fuel) fd h b total (size b) = Done (r, b', h ++ log) /\
    (length log <= 1)%nat /\
    write_outcome fd b total r b' log.
Proof.
  intros Hwf Hu Ht.
  pose proof Hwf as [[Hc Hb Hp Hs] Hsz]. rewrite PTRDIFF_MAX_eq in Hc.
  pose proof (contents_blen b Hwf) as Hbl.
  destruct (Z.eq_dec (size b) 0) as [Hs0 | Hs0].
  - rewrite Hs0, write_to_fd_loop_zero.
    exists (to_int total), b, []. rewrite app_nil_r.
    split; [reflexivity |]. split; [simpl; lia |].
    unfold write_outcome. cbn [accepted write_failed].
    replace (blen (@nil byte)) with 0 by reflexivity.
    rewrite !Z.add_0_r, Z.mod_small, to_size_t_small by lia.
    repeat (split; [assumption || reflexivity |]).
    split; [constructor | left; assumption].
  - rewrite write_to_fd_loop_step by (assumption || lia).
    destruct (fd h (firstn (Z.to_nat (size b)) (contents b))) as [| k] eqn:Efd.
    + eexists _, _, _. split; [reflexivity |]. split; [simpl; lia |].
      now apply write_outcome_error with (h := h).
    + pose proof (Hresp h (firstn (Z.to_nat (size b)) (contents b))) as Hk.
      rewrite Efd, blen_firstn in Hk by lia.
      cbv zeta. destruct (k =? size b) eqn:E.
      * assert (k = size b) by lia. subst k.
        pose proof (wf_advance b (size b) Hwf ltac:(lia)) as Hwf2.
        rewrite readable_len_unwrapped
          by (assumption || (cbn [capacity position size];
                             pose proof (Z.mod_pos_bound (position b + size b)
                                          (capacity b) ltac:(lia)); lia)).
        cbn [bind size]. rewrite Z.sub_diag, write_to_fd_loop_zero.
        eexists _, _, _. split; [reflexivity |]. split; [simpl; lia |].
        unfold write_outcome. cbn [accepted write_failed capacity position size buf].
        rewrite app_nil_r, firstn_firstn, Nat.min_id.
        rewrite (firstn_blen_all (size b) (contents b)) by lia.
        rewrite Hbl.
        pose proof (contents_advance_buffer b (size b) Hwf ltac:(lia)) as Hca.
        rewrite Z.sub_diag in Hwf2, Hca.
        split; [exact Hwf2 |].
        repeat (split; [reflexivity |]).
        split.
        { rewrite Hca, skipn_blen_all, app_nil_r by lia. reflexivity. }
        split; [reflexivity |].
        split; [| left; reflexivity].
        constructor; [| constructor]. exists h. simpl.
        rewrite (firstn_blen_all (size b) (contents b)) in Efd by lia.
        rewrite Efd. reflexivity.
      * eexists _, _, _. split; [reflexivity |]. split; [simpl; lia |].
        apply write_outcome_partial with (h := h); try assumption; lia.
Qed.

Lemma write_to_fd_loop_wrapped (fuel : nat) (h : write_log) (b : sgs_buffer)
      (total : Z) :
  wf b -> capacity b < position b + size b -> size b < capacity b ->
  0 <= total < SIZE_MOD ->
  exists r b' log,
    write_to_fd_loop (S (S fuel)) fd h b total (capacity b - position b)
    = Done (r, b', h ++ log) /\
    (length log <= 2)%nat /\
    write_outcome fd b total r b' log.
Proof.
  intros Hwf Hw Hnf Ht.
  pose proof Hwf as [[Hc Hb Hp Hs] Hsz]. rewrite PTRDIFF_MAX_eq in Hc.
  pose proof (contents_blen b Hwf) as Hbl.
  set (r0 := capacity b - position b) in *.
  rewrite write_to_fd_loop_step by (assumption || lia).
  destruct (fd h (firstn (Z.to_nat r0) (contents b))) as [| k] eqn:Efd.
  - eexists _, _, _. split; [reflexivity |]. split; [simpl; lia |].
    now apply write_outcome_error with (h := h).
  - pose proof (Hresp h (firstn (Z.to_nat r0) (contents b))) as Hk.
    rewrite Efd, blen_firstn in Hk by lia.
    cbv zeta. destruct (k =? r0) eqn:E.
    + assert (k = r0) by lia. subst k.
      set (b2 := mkBuffer (capacity b) ((position b + r0) mod capacity b)
                          (size b - r0) (buf b)).
      set (h1 := h ++ [(firstn (Z.to_nat r0) (contents b), WriteCount r0)]).
      pose proof (wf_advance b r0 Hwf ltac:(lia)) as Hwf2. fold b2 in Hwf2.
      assert (Hp2 : position b2 = 0).
      { unfold b2, r0. cbn [position].
        replace (position b + (capacity b - position b)) with (capacity b) by lia.
        apply Z.mod_same. lia. }
      assert (Hu2 : position b2 + size b2 <= capacity b2).
      { rewrite Hp2. unfold b2. cbn [capacity size]. lia. }
      rewrite readable_len_unwrapped by assumption. cbn [bind].
      destruct (write_to_fd_loop_unwrapped fuel h1 b2 (to_size_t (total + r0))
                                           Hwf2 Hu2 (to_size_t_range _))
        as (r & b' & log2 & Hrun & Hlen & Hout).
      exists r, b', ((firstn (Z.to_nat r0) (contents b), WriteCount r0) :: log2).
      split; [rewrite Hrun; unfold h1; rewrite <- app_assoc; reflexivity |].
      split; [simpl; lia |].
      destruct Hout as (Hwf' & Hcap & Hbuf & Hpos & Hcont & Hret & Hall & Hend).
      pose proof (contents_advance_buffer b r0 Hwf ltac:(lia)) as Hca.
      fold b2 in Hca.
      unfold write_outcome. cbn [accepted write_failed].
      rewrite firstn_firstn, Nat.min_id.
      rewrite blen_app, blen_firstn by lia.
      split; [exact Hwf' |].
      split; [rewrite Hcap; reflexivity |].
      split; [rewrite Hbuf; reflexivity |].
      split.
      { rewrite Hpos. unfold b2 at 1 2. cbn [capacity position].
        rewrite Zplus_mod_idemp_l. f_equal. lia. }
      split.
      { rewrite <- app_assoc, <- Hcont, Hca. now rewrite firstn_skipn. }
      split.
      { rewrite Hret, to_size_t_add_l. now rewrite Z.add_assoc. }
      split.
      { constructor; [| exact Hall]. exists h. simpl. now rewrite Efd. }
      destruct Hend as [Hz | (pre & bs & reply & Hlog & Hrep)]; [left; exact Hz |].
      right. exists ((firstn (Z.to_nat r0) (contents b), WriteCount r0) :: pre),
               bs, reply.
      split; [rewrite Hlog; reflexivity | exact Hrep].
    + eexists _, _, _. split; [reflexivity |]. split; [simpl; lia |].
      apply write_outcome_partial with (h := h); try assumption; lia.
Qed.

End WriteRuns.

(** ** Peek, read and write as their callers see them *)

Lemma readable_len_full (b : sgs_buffer) :
  allocated b -> size b = capacity b -> readable_len b = Done (capacity b).
Proof.
  intros [Hc Hb Hp Hs] Hfull. rewrite PTRDIFF_MAX_eq in Hc.
  unfold readable_len. rewrite tailpos_ok by lia. cbn [bind].
  rewrite to_size_t_small by (rewrite SIZE_MOD_eq; lia).
  rewrite Hfull.
  replace ((position b + capacity b) mod capacity b) with (position b)
    by (apply Z.mod_unique with (q := 1); lia).
  now rewrite Z.leb_refl.
Qed.

Lemma not_peekable_inv (b : sgs_buffer) (len : Z) :
  wf b -> ~ peekable b len ->
  size b = capacity b /\ 0 < position b /\ capacity b - position b < len.
Proof.
  intros [[Hc Hb Hp Hs] Hsz] Hn. unfold peekable in Hn. lia.
Qed.

Lemma peek_not_peekable (b : sgs_buffer) (data : list byte) (len : Z) :
  wf b -> 0 <= len <= size b -> ~ peekable b len ->
  sgs_buffer_peek b data len = Undef OutOfBounds.
Proof.
  intros Hwf Hlen Hn.
  destruct (not_peekable_inv b len Hwf Hn) as (Hfull & Hpos & Hfar).
  destruct Hwf as [Ha Hsz]. pose proof Ha as [Hc Hb Hp Hs].
  unfold sgs_buffer_peek. rewrite readable_len_full by assumption.
  cbn [bind].
  destruct (size b <? len) eqn:E1; [lia |].
  destruct (len <=? capacity b) eqn:E2; [| lia].
  unfold memcpy. rewrite load_out_of_bounds by lia. reflexivity.
Qed.

(** X2: on a buffer that satisfies the invariants, [sgs_buffer_peek] of
    [len <= size] bytes into a block of at least [len] bytes returns 0
    with the first [len] stored bytes, oldest first, at the start of the
    block and the rest of the block as it was; except on a full buffer
    whose head is not at offset 0, asked for more bytes than lie between
    the head and the end of the block: there the copy leaves the block. *)
Theorem peek_returns_contents (b : sgs_buffer) (data : list byte) (len : Z) :
  wf b -> 0 <= len <= size b -> len <= blen data ->
  (peekable b len ->
     sgs_buffer_peek b data len
     = Done (0, firstn (Z.to_nat len) (contents b)
                ++ skipn (Z.to_nat len) data)) /\
  (~ peekable b len -> sgs_buffer_peek b data len = Undef OutOfBounds).
Proof.
  intros Hwf Hlen Hd. split.
  - intros Hpk. now apply peek_contents_core.
  - intros Hn. now apply peek_not_peekable.
Qed.

Lemma peek_returns_contents_witness :
  (peekable (mkBuffer 8 3 7 (bytes_of "IJCDEFGH")) 7 ->
     sgs_buffer_peek (mkBuffer 8 3 7 (bytes_of "IJCDEFGH")) (zeros 9) 7
     = Done (0, firstn (Z.to_nat 7)
                       (contents (mkBuffer 8 3 7 (bytes_of "IJCDEFGH")))
                ++ skipn (Z.to_nat 7) (zeros 9))) /\
  (~ peekable (mkBuffer 8 3 7 (bytes_of "IJCDEFGH")) 7 ->
     sgs_buffer_peek (mkBuffer 8 3 7 (bytes_of "IJCDEFGH")) (zeros 9) 7
     = Undef OutOfBounds).
Proof.
  apply (peek_returns_contents (mkBuffer 8 3 7 (bytes_of "IJCDEFGH")) (zeros 9) 7).
  - split; [apply allocatedb_sound; reflexivity | simpl; lia].
  - simpl. lia.
  - vm_compute. discriminate.
Defined.

(** X3: under the same conditions [sgs_buffer_read] returns 0 with the
    same bytes in the caller's block and consumes them: the buffer still
    satisfies the invariants, its stored bytes are the old ones without
    the first [len], the size shrinks and the remaining capacity grows by
    [len], the head advances by [len] modulo the capacity, and the block
    is not written. On the full buffers excepted in X2 the call leaves
    the block instead. *)
Theorem read_consumes (b : sgs_buffer) (data : list byte) (len : Z) :
  wf b -> 0 <= len <= size b -> len <= blen data ->
  (peekable b len ->
     exists b',
       sgs_buffer_read b data len
       = Done (0, firstn (Z.to_nat len) (contents b)
                  ++ skipn (Z.to_nat len) data, b') /\
       wf b' /\ buf b' = buf b /\
       contents b' = skipn (Z.to_nat len) (contents b) /\
       sgs_buffer_size b' = sgs_buffer_size b - len /\
       sgs_buffer_remaining_capacity b'
       = sgs_buffer_remaining_capacity b + len /\
       position b' = (position b + len) mod capacity b) /\
  (~ peekable b len -> sgs_buffer_read b data len = Undef OutOfBounds).
Proof.
  intros Hwf Hlen Hd. split.
  - intros Hpk.
    destruct (read_consumes_core b data len Hwf Hpk Hlen Hd)
      as (b' & Hr & Hwf' & Hcap & Hbuf & Hsize & Hpos & Hcont).
    exists b'. split; [exact Hr |].
    split; [exact Hwf' |]. split; [exact Hbuf |]. split; [exact Hcont |].
    split; [exact Hsize |]. split; [| exact Hpos].
    destruct Hwf as [[Hc _ _ Hs] Hsz]. rewrite PTRDIFF_MAX_eq in Hc.
    unfold sgs_buffer_remaining_capacity. rewrite Hcap, Hsize.
    rewrite !to_size_t_small by (rewrite SIZE_MOD_eq; lia). lia.
  - intros Hn. unfold sgs_buffer_read.
    rewrite peek_not_peekable by assumption. reflexivity.
Qed.

Lemma read_consumes_witness :
  (peekable (mkBuffer 8 3 7 (bytes_of "IJCDEFGH")) 7 ->
     exists b',
       sgs_buffer_read (mkBuffer 8 3 7 (bytes_of "IJCDEFGH")) (zeros 9) 7
       = Done (0, firstn (Z.to_nat 7)
                         (contents (mkBuffer 8 3 7 (bytes_of "IJCDEFGH")))
                  ++ skipn (Z.to_nat 7) (zeros 9), b') /\
       wf b' /\ buf b' = bytes_of "IJCDEFGH" /\
       contents b'
       = skipn (Z.to_nat 7) (contents (mkBuffer 8 3 7 (bytes_of "IJCDEFGH"))) /\
       sgs_buffer_size b' = 7 - 7 /\
       sgs_buffer_remaining_capacity b'
       = sgs_buffer_remaining_capacity (mkBuffer 8 3 7 (bytes_of "IJCDEFGH")) + 7 /\
       position b' = (3 + 7) mod 8) /\
  (~ peekable (mkBuffer 8 3 7 (bytes_of "IJCDEFGH")) 7 ->
     sgs_buffer_read (mkBuffer 8 3 7 (bytes_of "IJCDEFGH")) (zeros 9) 7
     = Undef OutOfBounds).
Proof.
  apply (read_consumes (mkBuffer 8 3 7 (bytes_of "IJCDEFGH")) (zeros 9) 7).
  - split; [apply allocatedb_sound; reflexivity | simpl; lia].
  - simpl. lia.
  - vm_compute. discriminate.
Defined.

(** X4: on a buffer that satisfies the invariants, [sgs_buffer_write] of
    [len] bytes that fit the remaining capacity returns 0 without
    touching [errno]; the buffer still satisfies the invariants, its
    stored bytes are the old ones followed by the [len] bytes written,
    whether the copy was split at the end of the block or not; the size
    grows and the remaining capacity shrinks by [len], and the head
    stays. *)
Theorem write_appends (b : sgs_buffer) (data : list byte) (len : Z) :
  wf b -> 0 <= len <= sgs_buffer_remaining_capacity b -> len <= blen data ->
  exists b',
    sgs_buffer_write b data len = Done (0, b', None) /\
    wf b' /\
    contents b' = contents b ++ firstn (Z.to_nat len) data /\
    sgs_buffer_size b' = sgs_buffer_size b + len /\
    sgs_buffer_remaining_capacity b' = sgs_buffer_remaining_capacity b - len /\
    position b' = position b.
Proof.
  intros Hwf Hlen Hd.
  destruct (write_appends_core b data len Hwf Hlen Hd)
    as (b' & Hw & Hwf' & Hcap & Hpos & Hsize & Hcont).
  exists b'. split; [exact Hw |]. split; [exact Hwf' |].
  split; [exact Hcont |]. split; [exact Hsize |]. split; [| exact Hpos].
  destruct Hwf as [[Hc _ _ Hs] Hsz]. rewrite PTRDIFF_MAX_eq in Hc.
  unfold sgs_buffer_remaining_capacity in *. rewrite Hcap, Hsize.
  rewrite to_size_t_small in Hlen by (rewrite SIZE_MOD_eq; lia).
  rewrite !to_size_t_small by (rewrite SIZE_MOD_eq; lia). lia.
Qed.

Lemma write_appends_witness :
  exists b',
    sgs_buffer_write (mkBuffer 8 3 2 (bytes_of "ABCDEFGH")) (bytes_of "FGHIJKL") 5
    = Done (0, b', None) /\
    wf b' /\
    contents b' = contents (mkBuffer 8 3 2 (bytes_of "ABCDEFGH"))
                  ++ firstn (Z.to_nat 5) (bytes_of "FGHIJKL") /\
    sgs_buffer_size b' = sgs_buffer_size (mkBuffer 8 3 2 (bytes_of "ABCDEFGH")) + 5 /\
    sgs_buffer_remaining_capacity b'
    = sgs_buffer_remaining_capacity (mkBuffer 8 3 2 (bytes_of "ABCDEFGH")) - 5 /\
    position b' = 3.
Proof.
  apply (write_appends (mkBuffer 8 3 2 (bytes_of "ABCDEFGH"))
                       (bytes_of "FGHIJKL") 5).
  - split; [apply allocatedb_sound; reflexivity | simpl; lia].
  - vm_compute. split; discriminate.
  - vm_compute. discriminate.
Defined.

(** ** What [sgs_buffer_write_to_fd] returns and leaves *)

Lemma write_to_fd_run (fd : writer) (fuel : nat) (h : write_log) (b : sgs_buffer) :
  writer_respects fd -> wf b -> size b < capacity b \/ position b = 0 ->
  exists r b' log,
    sgs_buffer_write_to_fd (S (S fuel)) fd h b = Done (r, b', h ++ log) /\
    (length log <= 2)%nat /\
    write_outcome fd b 0 r b' log.
Proof.
  intros Hresp Hwf Hpk.
  pose proof Hwf as [[Hc Hb Hp Hs] Hsz].
  assert (Ht : 0 <= 0 < SIZE_MOD) by (rewrite SIZE_MOD_eq; lia).
  unfold sgs_buffer_write_to_fd.
  destruct (Z.le_gt_cases (position b + size b) (capacity b)) as [Hu | Hw].
  - rewrite readable_len_unwrapped by assumption. cbn [bind].
    destruct (write_to_fd_loop_unwrapped fd Hresp (S fuel) h b 0 Hwf Hu Ht)
      as (r & b' & log & Hrun & Hlen & Hout).
    exists r, b', log.
    split; [exact Hrun |]. split; [lia | exact Hout].
  - assert (Hnf : size b < capacity b) by lia.
    rewrite readable_len_wrapped by assumption. cbn [bind].
    now apply write_to_fd_loop_wrapped.
Qed.

Lemma write_outcome_size (fd : writer) (b : sgs_buffer) (total r : Z)
      (b' : sgs_buffer) (log : write_log) :
  wf b -> write_outcome fd b total r b' log ->
  size b = blen (accepted log) + size b'.
Proof.
  intros Hwf (Hwf' & _ & _ & _ & Hcont & _).
  rewrite <- (contents_blen b Hwf), <- (contents_blen b' Hwf').
  now rewrite Hcont, blen_app.
Qed.

(** X8: on a buffer that satisfies the invariants (a full one only with
    its head at offset 0), against a descriptor that accepts at most what
    it is offered, [sgs_buffer_write_to_fd] returns after at most two
    [write] calls. The bytes accepted are exactly the stored bytes that
    are gone from the buffer, oldest first, also when a later [write]
    failed; the buffer still satisfies the invariants and its block is
    not written. The result is -1 if a [write] failed, else the number of
    bytes accepted; the call ends only on an empty buffer or on a reply
    that is not the whole chunk offered. *)
Theorem write_to_fd_returns (fd : writer) (fuel : nat) (h : write_log)
        (b : sgs_buffer) :
  writer_respects fd -> wf b -> size b < capacity b \/ position b = 0 ->
  exists r b' log,
    sgs_buffer_write_to_fd (S (S fuel)) fd h b = Done (r, b', h ++ log) /\
    (length log <= 2)%nat /\
    write_outcome fd b 0 r b' log /\
    sgs_buffer_size b' = sgs_buffer_size b - blen (accepted log) /\
    r = (if write_failed log then -1 else to_int (blen (accepted log))).
Proof.
  intros Hresp Hwf Hpk.
  destruct (write_to_fd_run fd fuel h b Hresp Hwf Hpk)
    as (r & b' & log & Hrun & Hlen & Hout).
  pose proof (write_outcome_size fd b 0 r b' log Hwf Hout) as Hsize.
  exists r, b', log.
  repeat (split; [assumption |]).
  split; [unfold sgs_buffer_size; lia |].
  destruct Hout as (Hwf' & _ & _ & _ & _ & Hret & _).
  rewrite Hret. destruct (write_failed log); [reflexivity |].
  destruct Hwf as [[Hc _ _ Hs] Hsz]. destruct Hwf' as [[_ _ _ Hs'] _].
  pose proof (blen_nonneg (accepted log)).
  rewrite Z.add_0_l, to_size_t_small by lia. reflexivity.
Qed.

Lemma accept_all_respects : writer_respects accept_all.
Proof. intros h bs. unfold accept_all. pose proof (blen_nonneg bs). lia. Qed.

Lemma write_to_fd_returns_witness :
  exists r b' log,
    sgs_buffer_write_to_fd 2 accept_all [] (mkBuffer 8 3 7 (bytes_of "IJCDEFGH"))
    = Done (r, b', [] ++ log) /\
    (length log <= 2)%nat /\
    write_outcome accept_all (mkBuffer 8 3 7 (bytes_of "IJCDEFGH")) 0 r b' log /\
    sgs_buffer_size b'
    = sgs_buffer_size (mkBuffer 8 3 7 (bytes_of "IJCDEFGH"))
      - blen (accepted log) /\
    r = (if write_failed log then -1 else to_int (blen (accepted log))).
Proof.
  apply (write_to_fd_returns accept_all 0 [] (mkBuffer 8 3 7 (bytes_of "IJCDEFGH"))).
  - apply accept_all_respects.
  - split; [apply allocatedb_sound; reflexivity | simpl; lia].
  - left. simpl. lia.
Defined.

Lemma accept_all_never_fails (log : write_log) :
  Forall (fun e => exists h', snd e = accept_all h' (fst e)) log ->
  write_failed log = false /\
  forall pre bs reply, log = pre ++ [(bs, reply)] -> reply = WriteCount (blen bs).
Proof.
  intros Hall. split.
  - induction Hall as [| [bs reply] log (h' & Hx) Hall IH]; [reflexivity |].
    simpl in Hx. subst reply. exact IH.
  - intros pre bs reply Hlog. subst log.
    apply Forall_app in Hall. destruct Hall as [_ Hl].
    inversion Hl as [| ? ? (h' & Hx) _]. exact Hx.
Qed.

(** Against a descriptor that accepts every byte offered, a call on
    such a buffer empties it: in at most two [write] calls it hands over
    exactly the stored bytes, oldest first, returns their number, and
    leaves an empty buffer that satisfies the invariants. *)
Lemma write_to_fd_drains_core (fuel : nat) (h : write_log) (b : sgs_buffer) :
  wf b -> size b < capacity b \/ position b = 0 ->
  exists b' log,
    sgs_buffer_write_to_fd (S (S fuel)) accept_all h b
    = Done (to_int (size b), b', h ++ log) /\
    (length log <= 2)%nat /\
    accepted log = contents b /\
    wf b' /\ sgs_buffer_size b' = 0 /\ contents b' = [].
Proof.
  intros Hwf Hpk.
  destruct (write_to_fd_run accept_all fuel h b accept_all_respects Hwf Hpk)
    as (r & b' & log & Hrun & Hlen & Hout).
  pose proof (write_outcome_size _ b 0 r b' log Hwf Hout) as Hsize.
  destruct Hout as (Hwf' & _ & _ & _ & Hcont & Hret & Hall & Hend).
  destruct (accept_all_never_fails log Hall) as [Hnf Hlast].
  assert (Hz : size b' = 0).
  { destruct Hend as [Hz | (pre & bs & reply & Hlog & Hrep)]; [exact Hz |].
    exfalso. apply Hrep. now apply (Hlast pre). }
  assert (Hnil : contents b' = []).
  { apply blen_nil_inv. rewrite contents_blen by assumption. exact Hz. }
  rewrite Hnil, app_nil_r in Hcont.
  exists b', log.
  split.
  { rewrite Hrun, Hret, Hnf. do 3 f_equal.
    destruct Hwf as [[Hc _ _ Hs] Hsz].
    rewrite Z.add_0_l, to_size_t_small by lia. f_equal. lia. }
  repeat (split; [assumption || (symmetry; assumption) |]).
  exact Hnil.
Qed.


(** X7: against a descriptor that delivers at most what is requested and
    at some call stops satisfying the requests in full, a call of
    [sgs_buffer_read_from_fd] on a buffer that satisfies the invariants
    returns; when the bytes delivered fit the remaining capacity, the
    buffer still satisfies the invariants, its stored bytes are the old
    ones followed by the bytes delivered, in order, and the remaining
    capacity has shrunk by their number. *)
Theorem read_from_fd_appends (fd : reader) (N fuel : nat) (h : read_log)
        (b : sgs_buffer) :
  wf b -> respects_requests fd -> runs_dry fd N ->
  (N - length h < fuel)%nat ->
  exists r b' log,
    sgs_buffer_read_from_fd fuel fd h b = Done (r, b', h ++ log) /\
    (transferred log <= sgs_buffer_remaining_capacity b ->
     wf b' /\
     contents b' = contents b ++ delivered log /\
     sgs_buffer_size b' = sgs_buffer_size b + transferred log /\
     sgs_buffer_remaining_capacity b'
     = sgs_buffer_remaining_capacity b - transferred log).
Proof.
  intros Hwf Hresp Hdry Hf.
  destruct (read_from_fd_appends_core fd N fuel h b Hwf Hresp Hdry Hf)
    as (r & b' & log & Hrun & Hcap & _ & Hfit).
  exists r, b', log. split; [exact Hrun |].
  pose proof Hwf as [[Hc _ _ Hs] Hsz]. rewrite PTRDIFF_MAX_eq in Hc.
  assert (Hrem : sgs_buffer_remaining_capacity b = capacity b - size b).
  { apply to_size_t_small. rewrite SIZE_MOD_eq. lia. }
  rewrite Hrem. intros Hle.
  destruct Hfit as (Hwf' & Hsize & Hcont); [lia |].
  split; [exact Hwf' |]. split; [exact Hcont |].
  pose proof (transferred_nonneg log).
  unfold sgs_buffer_remaining_capacity, sgs_buffer_size.
  rewrite Hcap, Hsize.
  split; [reflexivity |].
  replace (capacity b - (size b + transferred log))
    with (capacity b - size b - transferred log) by lia.
  apply to_size_t_small. rewrite SIZE_MOD_eq. lia.
Qed.

Lemma read_from_fd_appends_witness :
  exists r b' log,
    sgs_buffer_read_from_fd 3 (scripted [ReadBytes (bytes_of "xy");
                                         ReadBytes (bytes_of "z")]) []
                            (mkBuffer 8 6 1 (bytes_of "ABCDEFGH"))
    = Done (r, b', [] ++ log) /\
    (transferred log
     <= sgs_buffer_remaining_capacity (mkBuffer 8 6 1 (bytes_of "ABCDEFGH")) ->
     wf b' /\
     contents b' = contents (mkBuffer 8 6 1 (bytes_of "ABCDEFGH"))
                   ++ delivered log /\
     sgs_buffer_size b'
     = sgs_buffer_size (mkBuffer 8 6 1 (bytes_of "ABCDEFGH")) + transferred log /\
     sgs_buffer_remaining_capacity b'
     = sgs_buffer_remaining_capacity (mkBuffer 8 6 1 (bytes_of "ABCDEFGH"))
       - transferred log).
Proof.
  apply (read_from_fd_appends
           (scripted [ReadBytes (bytes_of "xy"); ReadBytes (bytes_of "z")])
           2 3 [] (mkBuffer 8 6 1 (bytes_of "ABCDEFGH"))).
  - split; [apply allocatedb_sound; reflexivity | simpl; lia].
  - apply scripted_respects_requests.
  - apply (scripted_runs_dry [ReadBytes (bytes_of "xy"); ReadBytes (bytes_of "z")]).
  - simpl. lia.
Defined.

(** X9: against a descriptor that accepts every byte offered, a call of
    [sgs_buffer_write_to_fd] on a buffer that satisfies the invariants (a
    full one only with its head at offset 0) empties it: in at most two
    [write] calls it hands over exactly the stored bytes, oldest first,
    returns their number, and leaves an empty buffer whose whole capacity
    remains. *)
Theorem write_to_fd_drains (fuel : nat) (h : write_log) (b : sgs_buffer) :
  wf b -> size b < capacity b \/ position b = 0 ->
  exists b' log,
    sgs_buffer_write_to_fd (S (S fuel)) accept_all h b
    = Done (to_int (sgs_buffer_size b), b', h ++ log) /\
    (length log <= 2)%nat /\
    accepted log = contents b /\
    wf b' /\ sgs_buffer_size b' = 0 /\
    sgs_buffer_remaining_capacity b' = sgs_buffer_capacity b.
Proof.
  intros Hwf Hpk.
  destruct (write_to_fd_drains_core fuel h b Hwf Hpk)
    as (b' & log & Hrun & Hlen & Hacc & Hwf' & Hz & Hnil).
  destruct (write_to_fd_run accept_all fuel h b accept_all_respects Hwf Hpk)
    as (r1 & b1 & log1 & Hrun1 & _ & (_ & Hcap & _)).
  rewrite Hrun in Hrun1. injection Hrun1 as _ Hb1 _. subst b1.
  exists b', log.
  repeat (split; [assumption |]).
  unfold sgs_buffer_remaining_capacity, sgs_buffer_capacity, sgs_buffer_size in *.
  rewrite Hcap, Hz, Z.sub_0_r.
  destruct Hwf as [[Hc _ _ _] _]. rewrite PTRDIFF_MAX_eq in Hc.
  apply to_size_t_small. rewrite SIZE_MOD_eq. lia.
Qed.

Lemma write_to_fd_drains_witness :
  exists b' log,
    sgs_buffer_write_to_fd 2 accept_all [] (mkBuffer 8 3 7 (bytes_of "IJCDEFGH"))
    = Done (to_int (sgs_buffer_size (mkBuffer 8 3 7 (bytes_of "IJCDEFGH"))),
            b', [] ++ log) /\
    (length log <= 2)%nat /\
    accepted log = contents (mkBuffer 8 3 7 (bytes_of "IJCDEFGH")) /\
    wf b' /\ sgs_buffer_size b' = 0 /\
    sgs_buffer_remaining_capacity b'
    = sgs_buffer_capacity (mkBuffer 8 3 7 (bytes_of "IJCDEFGH")).
Proof.
  apply (write_to_fd_drains 0 [] (mkBuffer 8 3 7 (bytes_of "IJCDEFGH"))).
  - split; [apply allocatedb_sound; reflexivity | simpl; lia].
  - left. simpl. lia.
Defined.

(** X10: on every full buffer whose head is not at offset 0,
    [sgs_buffer_write_to_fd] offers [capacity] bytes from the head to its
    first [write], which reads past the end of the block, whatever the
    descriptor. *)
Theorem write_to_fd_full_wrapped_undefined (fd : writer) (fuel : nat)
        (h : write_log) (b : sgs_buffer) :
  allocated b -> size b = capacity b -> 0 < position b ->
  sgs_buffer_write_to_fd (S fuel) fd h b = Undef OutOfBounds.
Proof.
  intros Ha Hfull Hpos. pose proof Ha as [Hc Hb Hp Hs].
  unfold sgs_buffer_write_to_fd. rewrite readable_len_full by assumption.
  cbn [bind write_to_fd_loop].
  destruct (0 <? capacity b) eqn:E; [| lia].
  unfold sys_write. rewrite load_out_of_bounds by lia. reflexivity.
Qed.

Lemma write_to_fd_full_wrapped_undefined_witness :
  sgs_buffer_write_to_fd 1 accept_all [] full_wrapped = Undef OutOfBounds.
Proof.
  apply (write_to_fd_full_wrapped_undefined accept_all 0 [] full_wrapped).
  - apply allocatedb_sound. reflexivity.
  - reflexivity.
  - simpl. lia.
Defined.

(** ** Creating and emptying *)

(** X11: [sgs_buffer_create] returns [NULL] exactly when one of the two
    allocations fails; otherwise the buffer satisfies the invariants,
    stores nothing, has the capacity asked for, all of it remaining, its
    head at offset 0, and the allocated block as storage. *)
Theorem create_empty_buffer (c : Z) (m : list byte) (struct_ok : bool)
        (block : option (list byte)) :
  0 < c <= PTRDIFF_MAX -> blen m = c ->
  (sgs_buffer_create c struct_ok block = None
   <-> struct_ok = false \/ block = None) /\
  exists b,
    sgs_buffer_create c true (Some m) = Some b /\
    wf b /\ sgs_buffer_capacity b = c /\ sgs_buffer_size b = 0 /\
    sgs_buffer_remaining_capacity b = c /\
    position b = 0 /\ contents b = [] /\ buf b = m.
Proof.
  intros Hc Hm. split.
  - unfold sgs_buffer_create.
    destruct struct_ok, block; split; intros H;
      try discriminate; try (left; reflexivity); try (right; reflexivity);
      try reflexivity; destruct H; discriminate.
  - exists (mkBuffer c 0 0 m).
    pose proof Hc as Hc'. rewrite PTRDIFF_MAX_eq in Hc'.
    split; [reflexivity |].
    split.
    { split; [constructor |]; cbn [capacity position size buf];
        rewrite ?SIZE_MOD_eq; lia. }
    repeat (split; [reflexivity |]).
    split; [| repeat split; reflexivity].
    unfold sgs_buffer_remaining_capacity. cbn [capacity size].
    rewrite Z.sub_0_r. apply to_size_t_small. rewrite SIZE_MOD_eq. lia.
Qed.

Lemma create_empty_buffer_witness :
  (sgs_buffer_create 8 true None = None <-> true = false \/ @None (list byte) = None) /\
  exists b,
    sgs_buffer_create 8 true (Some (zeros 8)) = Some b /\
    wf b /\ sgs_buffer_capacity b = 8 /\ sgs_buffer_size b = 0 /\
    sgs_buffer_remaining_capacity b = 8 /\
    position b = 0 /\ contents b = [] /\ buf b = zeros 8.
Proof.
  apply (create_empty_buffer 8 (zeros 8) true None).
  - rewrite PTRDIFF_MAX_eq. lia.
  - reflexivity.
Defined.

Lemma empty_wf (b : sgs_buffer) :
  allocated b ->
  wf (sgs_buffer_empty b) /\ capacity (sgs_buffer_empty b) = capacity b /\
  position (sgs_buffer_empty b) = 0 /\ size (sgs_buffer_empty b) = 0 /\
  buf (sgs_buffer_empty b) = buf b /\
  sgs_buffer_remaining_capacity (sgs_buffer_empty b) = capacity b.
Proof.
  intros [Hc Hb Hp Hs]. pose proof Hc as Hc'. rewrite PTRDIFF_MAX_eq in Hc'.
  unfold sgs_buffer_empty, set_size, set_position, sgs_buffer_remaining_capacity.
  cbn [capacity position size buf].
  split.
  { split; [constructor |]; cbn [capacity position size buf];
      rewrite ?SIZE_MOD_eq; lia. }
  repeat (split; [reflexivity |]).
  rewrite Z.sub_0_r. apply to_size_t_small. rewrite SIZE_MOD_eq. lia.
Qed.

(** X12: [sgs_buffer_empty] turns every allocated buffer, also a full
    one with its head anywhere and one whose size has run past the
    capacity, into an empty buffer that satisfies the invariants, with
    the head at offset 0 and the whole capacity remaining; the block is
    not touched and emptying twice is emptying once. After it, a write of
    [capacity] bytes succeeds and leaves no capacity remaining, and a
    read of [capacity] bytes returns exactly those bytes. *)
Theorem empty_then_fill (b : sgs_buffer) (data out : list byte) :
  allocated b -> blen data = capacity b -> blen out = capacity b ->
  wf (sgs_buffer_empty b) /\
  sgs_buffer_size (sgs_buffer_empty b) = 0 /\
  sgs_buffer_remaining_capacity (sgs_buffer_empty b) = sgs_buffer_capacity b /\
  position (sgs_buffer_empty b) = 0 /\
  contents (sgs_buffer_empty b) = [] /\
  buf (sgs_buffer_empty b) = buf b /\
  sgs_buffer_empty (sgs_buffer_empty b) = sgs_buffer_empty b /\
  exists b1 b2,
    sgs_buffer_write (sgs_buffer_empty b) data (capacity b) = Done (0, b1, None) /\
    sgs_buffer_remaining_capacity b1 = 0 /\
    sgs_buffer_read b1 out (capacity b) = Done (0, data, b2) /\
    sgs_buffer_size b2 = 0.
Proof.
  intros Ha Hd Ho.
  destruct (empty_wf b Ha) as (Hwf & Hcap & Hpos & Hsize & Hbuf & Hrem).
  pose proof Ha as [Hc Hb Hp Hs]. pose proof Hc as Hc'.
  rewrite PTRDIFF_MAX_eq in Hc'.
  set (e := sgs_buffer_empty b) in *.
  assert (Hnil : contents e = []).
  { apply blen_nil_inv. rewrite contents_blen by assumption. exact Hsize. }
  repeat (split; [assumption || reflexivity |]).
  destruct (write_appends_core e data (capacity b) Hwf)
    as (b1 & Hw & Hwf1 & Hcap1 & Hpos1 & Hsize1 & Hcont1); try lia.
  rewrite Hnil, Hsize in *. cbn [app] in Hcont1.
  rewrite Z.add_0_l in Hsize1.
  rewrite <- Hd, firstn_blen_all in Hcont1 by lia.
  destruct (read_consumes_core b1 out (capacity b) Hwf1)
    as (b2 & Hr & Hwf2 & Hcap2 & Hbuf2 & Hsize2 & Hpos2 & Hcont2); try lia.
  { right. left. congruence. }
  exists b1, b2. split; [exact Hw |].
  split.
  { unfold sgs_buffer_remaining_capacity. rewrite Hcap1, Hcap, Hsize1, Z.sub_diag.
    reflexivity. }
  split; [| unfold sgs_buffer_size; lia].
  rewrite Hr, Hcont1.
  rewrite firstn_blen_all, skipn_blen_all, app_nil_r by lia.
  reflexivity.
Qed.

Lemma empty_then_fill_witness :
  wf (sgs_buffer_empty full_wrapped) /\
  sgs_buffer_size (sgs_buffer_empty full_wrapped) = 0 /\
  sgs_buffer_remaining_capacity (sgs_buffer_empty full_wrapped)
  = sgs_buffer_capacity full_wrapped /\
  position (sgs_buffer_empty full_wrapped) = 0 /\
  contents (sgs_buffer_empty full_wrapped) = [] /\
  buf (sgs_buffer_empty full_wrapped) = buf full_wrapped /\
  sgs_buffer_empty (sgs_buffer_empty full_wrapped) = sgs_buffer_empty full_wrapped /\
  exists b1 b2,
    sgs_buffer_write (sgs_buffer_empty full_wrapped) (bytes_of "xy")
                     (capacity full_wrapped) = Done (0, b1, None) /\
    sgs_buffer_remaining_capacity b1 = 0 /\
    sgs_buffer_read b1 (zeros 2) (capacity full_wrapped)
    = Done (0, bytes_of "xy", b2) /\
    sgs_buffer_size b2 = 0.
Proof.
  apply (empty_then_fill full_wrapped (bytes_of "xy") (zeros 2)).
  - apply allocatedb_sound. reflexivity.
  - reflexivity.
  - reflexivity.
Defined.

(** ** Operations composed *)

(** X13: staging. After a call of [sgs_buffer_read_from_fd] whose bytes
    fit the remaining capacity (and do not fill the buffer unless its
    head is at offset 0), a call of [sgs_buffer_write_to_fd] against a
    descriptor that accepts everything hands over the bytes stored before
    followed by the bytes just delivered, in order, each once, returns
    their number and leaves the buffer empty. *)
Theorem read_from_fd_then_write_to_fd (fd : reader) (N fuel fuel' : nat)
        (h : read_log) (hw : write_log) (b : sgs_buffer) :
  wf b -> respects_requests fd -> runs_dry fd N ->
  (N - length h < fuel)%nat ->
  exists r b1 log,
    sgs_buffer_read_from_fd fuel fd h b = Done (r, b1, h ++ log) /\
    (size b + transferred log < capacity b \/
     (size b + transferred log <= capacity b /\ position b = 0) ->
     exists b2 wlog,
       sgs_buffer_write_to_fd (S (S fuel')) accept_all hw b1
       = Done (to_int (size b + transferred log), b2, hw ++ wlog) /\
       accepted wlog = contents b ++ delivered log /\
       sgs_buffer_size b2 = 0).
Proof.
  intros Hwf Hresp Hdry Hf.
  destruct (read_from_fd_appends_core fd N fuel h b Hwf Hresp Hdry Hf)
    as (r & b1 & log & Hrun & Hcap & Hpos & Hfit).
  exists r, b1, log. split; [exact Hrun |].
  intros Hroom.
  destruct Hfit as (Hwf1 & Hsize1 & Hcont1); [lia |].
  destruct (write_to_fd_drains_core fuel' hw b1 Hwf1)
    as (b2 & wlog & Hw & _ & Hacc & _ & Hz & _).
  { rewrite Hsize1, Hcap, Hpos. destruct Hroom as [H | [_ H]]; [left | right]; lia. }
  exists b2, wlog. rewrite Hw, Hsize1, Hacc, Hcont1.
  repeat split. exact Hz.
Qed.

Lemma read_from_fd_then_write_to_fd_witness :
  exists r b1 log,
    sgs_buffer_read_from_fd 3 (scripted [ReadBytes (bytes_of "xy");
                                         ReadBytes (bytes_of "z")]) []
                            (mkBuffer 8 6 1 (bytes_of "ABCDEFGH"))
    = Done (r, b1, [] ++ log) /\
    (1 + transferred log < 8 \/ (1 + transferred log <= 8 /\ 6 = 0) ->
     exists b2 wlog,
       sgs_buffer_write_to_fd 2 accept_all [] b1
       = Done (to_int (1 + transferred log), b2, [] ++ wlog) /\
       accepted wlog = contents (mkBuffer 8 6 1 (bytes_of "ABCDEFGH"))
                       ++ delivered log /\
       sgs_buffer_size b2 = 0).
Proof.
  apply (read_from_fd_then_write_to_fd
           (scripted [ReadBytes (bytes_of "xy"); ReadBytes (bytes_of "z")])
           2 3 0 [] [] (mkBuffer 8 6 1 (bytes_of "ABCDEFGH"))).
  - split; [apply allocatedb_sound; reflexivity | simpl; lia].
  - apply scripted_respects_requests.
  - apply (scripted_runs_dry [ReadBytes (bytes_of "xy"); ReadBytes (bytes_of "z")]).
  - simpl. lia.
Defined.

(** ** The invariants under the operations other than read_from_fd *)

Lemma memcpy_count_nonneg (dst : list byte) (doff : Z) (src : list byte)
      (soff n : Z) (m : list byte) :
  memcpy dst doff src soff n = Done m -> 0 <= n.
Proof.
  unfold memcpy. destruct (load src soff n) as [bs | |] eqn:E; try discriminate.
  intros _. apply load_blen in E. lia.
Qed.

Lemma read_keeps_wf (b : sgs_buffer) (data : list byte) (len r : Z)
      (d : list byte) (b' : sgs_buffer) :
  wf b -> sgs_buffer_read b data len = Done (r, d, b') -> wf b'.
Proof.
  intros Hwf. pose proof Hwf as [Ha Hsz].
  destruct (readable_len_cases b Ha) as (rd & Er & Hrd).
  pose proof Ha as [Hc Hb Hp Hs]. rewrite PTRDIFF_MAX_eq in Hc.
  unfold sgs_buffer_read, sgs_buffer_peek. rewrite Er. cbn [bind].
  destruct (size b <? len) eqn:E1.
  { cbn [bind]. change (-1 =? -1) with true. cbn iota.
    intros H. injection H as _ _ <-. exact Hwf. }
  assert (Hfin : 0 <= len ->
            forall d1,
              (if 0 =? -1 then Done (-1, d1, b)
               else p <- size_rem (to_size_t (position b + len)) (capacity b);;
                    Done (0, d1,
                          set_size (set_position b p)
                                   (to_size_t (size (set_position b p) - len))))
              = Done (r, d, b') -> wf b').
  { intros Hlen d1. change (0 =? -1) with false. cbn iota.
    rewrite size_rem_ok by lia. cbn [bind].
    intros H. injection H as _ _ <-.
    unfold set_size, set_position. cbn [capacity position size buf].
    rewrite (to_size_t_small (size b - len)) by (rewrite SIZE_MOD_eq; lia).
    pose proof (Z.mod_pos_bound (to_size_t (position b + len)) (capacity b)
                                ltac:(lia)).
    split; [constructor |]; cbn [capacity position size buf];
      rewrite ?PTRDIFF_MAX_eq, ?SIZE_MOD_eq; lia. }
  destruct (len <=? rd) eqn:E2.
  - destruct (memcpy data 0 (buf b) (position b) len) as [d1 | |] eqn:Em;
      cbn [bind]; try discriminate.
    apply Hfin. eapply memcpy_count_nonneg. eassumption.
  - destruct (memcpy data 0 (buf b) (position b) rd) as [d1 | |] eqn:Em1;
      cbn [bind]; try discriminate.
    destruct (memcpy d1 rd (buf b) 0 (to_size_t (len - rd))) as [d2 | |] eqn:Em2;
      cbn [bind]; try discriminate.
    apply Hfin. apply memcpy_count_nonneg in Em1. lia.
Qed.

Lemma write_keeps_wf (b : sgs_buffer) (data : list byte) (len r : Z)
      (b' : sgs_buffer) (e : option errno_code) :
  wf b -> sgs_buffer_write b data len = Done (r, b', e) -> wf b'.
Proof.
  intros Hwf. pose proof Hwf as [Ha Hsz].
  destruct (writable_len_range b Ha) as (t & w & Et & Ew & Ht & Hw & Htw).
  pose proof Ha as [Hc Hb Hp Hs]. rewrite PTRDIFF_MAX_eq in Hc.
  assert (Hrem : sgs_buffer_remaining_capacity b = capacity b - size b).
  { apply to_size_t_small. rewrite SIZE_MOD_eq. lia. }
  unfold sgs_buffer_write. rewrite Ew, Hrem, Et. cbn [bind].
  destruct (capacity b - size b <? len) eqn:E1.
  { intros H. injection H as _ <- _. exact Hwf. }
  assert (Hfin : forall m, 0 <= len -> blen m = capacity b ->
            wf (set_size (set_buf b m) (to_size_t (size (set_buf b m) + len)))).
  { intros m Hlen Hm. cbn [set_buf size].
    rewrite to_size_t_small by (rewrite SIZE_MOD_eq; lia).
    split; [constructor |]; cbn [set_size set_buf capacity position size buf];
      rewrite ?PTRDIFF_MAX_eq, ?SIZE_MOD_eq; lia. }
  destruct (len <=? w) eqn:E2.
  - destruct (memcpy (buf b) t data 0 len) as [m | |] eqn:Em;
      cbn [bind]; try discriminate.
    intros H. injection H as _ <- _.
    apply Hfin; [eapply memcpy_count_nonneg; eassumption |].
    rewrite (memcpy_blen _ _ _ _ _ _ Em). exact Hb.
  - destruct (memcpy (buf b) t data 0 w) as [m1 | |] eqn:Em1;
      cbn [bind]; try discriminate.
    destruct (memcpy m1 0 data w (to_size_t (len - w))) as [m2 | |] eqn:Em2;
      cbn [bind]; try discriminate.
    intros H. injection H as _ <- _.
    apply Hfin; [lia |].
    rewrite (memcpy_blen _ _ _ _ _ _ Em2), (memcpy_blen _ _ _ _ _ _ Em1).
    exact Hb.
Qed.

Lemma write_to_fd_keeps_wf (fd : writer) (fuel : nat) (h : write_log)
      (b : sgs_buffer) (r : Z) (b' : sgs_buffer) (h' : write_log) :
  writer_respects fd -> wf b ->
  sgs_buffer_write_to_fd (S (S fuel)) fd h b = Done (r, b', h') -> wf b'.
Proof.
  intros Hresp Hwf Hrun. pose proof Hwf as [Ha Hsz].
  pose proof Ha as [Hc Hb Hp Hs].
  destruct (Z.eq_dec (position b) 0) as [Hp0 | Hp0].
  - destruct (write_to_fd_run fd fuel h b Hresp Hwf (or_intror Hp0))
      as (r1 & b1 & log & Hrun1 & _ & (Hwf1 & _)).
    rewrite Hrun in Hrun1. injection Hrun1 as _ <- _. exact Hwf1.
  - destruct (Z.lt_ge_cases (size b) (capacity b)) as [Hlt | Hge].
    + destruct (write_to_fd_run fd fuel h b Hresp Hwf (or_introl Hlt))
        as (r1 & b1 & log & Hrun1 & _ & (Hwf1 & _)).
      rewrite Hrun in Hrun1. injection Hrun1 as _ <- _. exact Hwf1.
    + exfalso. revert Hrun. unfold sgs_buffer_write_to_fd.
      rewrite readable_len_full by (assumption || lia).
      cbn [bind write_to_fd_loop].
      destruct (0 <? capacity b) eqn:E; [| lia].
      unfold sys_write. rewrite load_out_of_bounds by lia. discriminate.
Qed.

(** X14: every operation of the interface other than
    [sgs_buffer_read_from_fd] keeps the invariants: whenever
    [sgs_buffer_read] or [sgs_buffer_write] returns, with 0 or with -1,
    on a buffer that satisfies them, so does the buffer it leaves; the
    same holds for [sgs_buffer_write_to_fd] against a descriptor that
    accepts at most what it is offered, and for [sgs_buffer_empty]. *)
Theorem operations_keep_invariants (b : sgs_buffer) :
  wf b ->
  (forall data len r d b',
      sgs_buffer_read b data len = Done (r, d, b') -> wf b') /\
  (forall data len r b' e,
      sgs_buffer_write b data len = Done (r, b', e) -> wf b') /\
  (forall fd fuel h r b' h',
      writer_respects fd ->
      sgs_buffer_write_to_fd (S (S fuel)) fd h b = Done (r, b', h') -> wf b') /\
  wf (sgs_buffer_empty b).
Proof.
  intros Hwf. split; [| split; [| split]].
  - intros data len r d b'. now apply read_keeps_wf.
  - intros data len r b' e. now apply write_keeps_wf.
  - intros fd fuel h r b' h' Hresp. now apply write_to_fd_keeps_wf.
  - apply empty_wf. apply Hwf.
Qed.

Lemma operations_keep_invariants_witness :
  (forall data len r d b',
      sgs_buffer_read full_wrapped data len = Done (r, d, b') -> wf b') /\
  (forall data len r b' e,
      sgs_buffer_write full_wrapped data len = Done (r, b', e) -> wf b') /\
  (forall fd fuel h r b' h',
      writer_respects fd ->
      sgs_buffer_write_to_fd (S (S fuel)) fd h full_wrapped = Done (r, b', h') ->
      wf b') /\
  wf (sgs_buffer_empty full_wrapped).
Proof.
  apply (operations_keep_invariants full_wrapped).
  split; [apply allocatedb_sound; reflexivity | simpl; lia].
Defined.

(** X15: a call of [sgs_buffer_write_to_fd] that ends early, on a failed
    [write] or a partial transfer, loses and repeats nothing: a later
    call against a descriptor that accepts everything hands over exactly
    the stored bytes the first call did not get accepted, so that the
    bytes accepted by the two calls are the stored bytes, in order. *)
Theorem write_to_fd_resumes (fd : writer) (fuel fuel' : nat) (h : write_log)
        (b : sgs_buffer) :
  writer_respects fd -> wf b -> size b < capacity b \/ position b = 0 ->
  exists r b1 log,
    sgs_buffer_write_to_fd (S (S fuel)) fd h b = Done (r, b1, h ++ log) /\
    exists b2 log2,
      sgs_buffer_write_to_fd (S (S fuel')) accept_all (h ++ log) b1
      = Done (to_int (sgs_buffer_size b1), b2, (h ++ log) ++ log2) /\
      accepted log ++ accepted log2 = contents b /\
      sgs_buffer_size b2 = 0.
Proof.
  intros Hresp Hwf Hpk.
  destruct (write_to_fd_run fd fuel h b Hresp Hwf Hpk)
    as (r & b1 & log & Hrun & _ & Hout).
  pose proof (write_outcome_size fd b 0 r b1 log Hwf Hout) as Hsize.
  destruct Hout as (Hwf1 & Hcap & _ & Hpos & Hcont & _).
  pose proof (blen_nonneg (accepted log)) as Hacc.
  pose proof Hwf as [[Hc _ Hp _] Hsz].
  assert (Hpk1 : size b1 < capacity b1 \/ position b1 = 0).
  { destruct (Z.eq_dec (blen (accepted log)) 0) as [Hz | Hnz].
    - rewrite Hpos, Hz, Z.add_0_r, Z.mod_small, Hcap by lia.
      destruct Hpk; [left | right]; lia.
    - left. lia. }
  destruct (write_to_fd_drains_core fuel' (h ++ log) b1 Hwf1 Hpk1)
    as (b2 & log2 & Hrun2 & _ & Hacc2 & _ & Hz2 & _).
  exists r, b1, log. split; [exact Hrun |].
  exists b2, log2. split; [exact Hrun2 |].
  split; [rewrite Hacc2; symmetry; exact Hcont | exact Hz2].
Qed.

Lemma accept_one_respects : writer_respects accept_one.
Proof. intros h bs. unfold accept_one. pose proof (blen_nonneg bs). lia. Qed.

Lemma write_to_fd_resumes_witness :
  exists r b1 log,
    sgs_buffer_write_to_fd 2 accept_one [] (mkBuffer 8 3 7 (bytes_of "IJCDEFGH"))
    = Done (r, b1, [] ++ log) /\
    exists b2 log2,
      sgs_buffer_write_to_fd 2 accept_all ([] ++ log) b1
      = Done (to_int (sgs_buffer_size b1), b2, ([] ++ log) ++ log2) /\
      accepted log ++ accepted log2
      = contents (mkBuffer 8 3 7 (bytes_of "IJCDEFGH")) /\
      sgs_buffer_size b2 = 0.
Proof.
  apply (write_to_fd_resumes accept_one 0 0 []
                             (mkBuffer 8 3 7 (bytes_of "IJCDEFGH"))).
  - apply accept_one_respects.
  - split; [apply allocatedb_sound; reflexivity | simpl; lia].
  - left. simpl. lia.
Defined.

(** ** What a call of read_from_fd returns *)

(** C3, amended: on a buffer that satisfies the invariants, against a
    descriptor that respects the requests and at some call stops
    satisfying them in full, [sgs_buffer_read_from_fd] returns. When the
    bytes transferred in the call leave the buffer short of full, the
    call has ended at the first reply that is not the whole request, all
    earlier replies being whole requests, and it returns -1 if that reply
    is an error, 0 if it is the end of the stream (whatever was
    transferred before in the same call), and else the number of bytes
    transferred in the call, converted to [int]. The buffer then still
    satisfies the invariants, [size] has grown by the bytes transferred,
    and [position] and [capacity] stay. When fewer than 2^31 bytes were
    transferred, 0 is returned only on end of stream. *)
Theorem read_from_fd_return_value (fd : reader) (N fuel : nat) (h : read_log)
        (b : sgs_buffer) :
  wf b -> respects_requests fd -> runs_dry fd N ->
  (N - length h < fuel)%nat ->
  exists r b' log,
    sgs_buffer_read_from_fd fuel fd h b = Done (r, b', h ++ log) /\
    (size b + transferred log < capacity b ->
     exists pre n last,
       log = pre ++ [(n, last)] /\
       Forall full_entry pre /\ short_reply n last /\
       wf b' /\ capacity b' = capacity b /\ position b' = position b /\
       size b' = size b + transferred log /\
       r = read_from_fd_result last (transferred log) /\
       (transferred log < 2 ^ 31 -> (r = 0 <-> last = ReadBytes []))).
Proof.
  intros [Ha Hsz] Hresp Hdry Hf. unfold sgs_buffer_read_from_fd.
  destruct (writable_len_range b Ha) as (t & w & _ & Ew & _).
  rewrite Ew. cbn [bind].
  destruct (read_from_fd_loop_returns fd N Hresp Hdry fuel h b 0 w Ha Ew)
    as (r & b' & pre & n & last & Hrun & Hfull & Hshort & Hcap & Hpos
        & Hsize & Hret); [rewrite SIZE_MOD_eq; lia | exact Hf |].
  pose proof (read_from_fd_loop_inv fd Hresp fuel h b 0 w Ha Ew) as Hinv.
  rewrite Hrun in Hinv. destruct Hinv as (Ha' & _).
  rewrite Z.add_0_l in Hret.
  set (log := pre ++ [(n, last)]) in *.
  exists r, b', log. split; [exact Hrun |].
  intros Hroom.
  pose proof (transferred_nonneg log) as Hnn.
  pose proof Ha as [Hc _ _ Hs]. rewrite PTRDIFF_MAX_eq in Hc.
  rewrite to_size_t_small in Hsize by (rewrite SIZE_MOD_eq; lia).
  exists pre, n, last.
  split; [reflexivity |]. split; [exact Hfull |]. split; [exact Hshort |].
  split; [split; [exact Ha' | lia] |].
  split; [exact Hcap |]. split; [exact Hpos |]. split; [exact Hsize |].
  split; [exact Hret |].
  intros Hsmall. rewrite Hret.
  destruct last as [| [| x bs']]; simpl.
  - split; discriminate.
  - split; reflexivity.
  - split; [| discriminate]. intros H0. exfalso.
    assert (Hx : 1 <= transferred log).
    { unfold log. rewrite transferred_app. simpl.
      pose proof (transferred_nonneg pre).
      assert (1 <= blen (x :: bs')) by (unfold blen; simpl; lia). lia. }
    change (2 ^ 31) with 2147483648 in Hsmall.
    rewrite to_size_t_small in H0 by (rewrite SIZE_MOD_eq; lia).
    rewrite to_int_small in H0 by (change (2 ^ 31) with 2147483648; lia).
    lia.
Qed.

Lemma read_from_fd_return_value_witness :
  (exists r b' log,
      sgs_buffer_read_from_fd 2 (scripted [ReadBytes (zeros 2)]) []
                              (mkBuffer 4 2 0 (zeros 4))
      = Done (r, b', [] ++ log) /\
      (0 + transferred log < 4 ->
       exists pre n last,
         log = pre ++ [(n, last)] /\
         Forall full_entry pre /\ short_reply n last /\
         wf b' /\ capacity b' = 4 /\ position b' = 2 /\
         size b' = 0 + transferred log /\
         r = read_from_fd_result last (transferred log) /\
         (transferred log < 2 ^ 31 -> (r = 0 <-> last = ReadBytes [])))) /\
  (exists b',
      sgs_buffer_read_from_fd 2 (scripted [ReadBytes (zeros 2)]) []
                              (mkBuffer 4 2 0 (zeros 4))
      = Done (0, b', [] ++ [(2, ReadBytes (zeros 2)); (2, ReadBytes [])]) /\
      0 + transferred [(2, ReadBytes (zeros 2)); (2, ReadBytes [])] < 4).
Proof.
  split.
  - apply (read_from_fd_return_value (scripted [ReadBytes (zeros 2)]) 1 2 []
                                     (mkBuffer 4 2 0 (zeros 4))).
    + split; [apply allocatedb_sound; reflexivity | simpl; lia].
    + apply scripted_respects_requests.
    + apply (scripted_runs_dry [ReadBytes (zeros 2)]).
    + simpl. lia.
  - eexists. split; [vm_compute; reflexivity | vm_compute; reflexivity].
Defined.
